(** * Backend lowering of the GraphQL compiler IR

    A shallow embedding of [compiler/cypher_query.py] (the step assembler of
    the pattern-matching backend) and of [compiler/emit_sql.py] (the SQL tree
    emitter), with the properties of both stated and proved over it. *)

From Stdlib Require Import ZArith String List Lia.
From stdpp Require Import base option list strings gmap.

Local Open Scope string_scope.
Local Open Scope Z_scope.
Local Open Scope list_scope.

(** ** Python exceptions

    Every [raise] site of the two modules is kept apart, together with the
    implicit failures of the interpreter on [None] and on empty lists. *)

Inductive AssertionSite :=
| UnexpectedStepBlocks        (* cypher_query.py, lines 72 and 96 *)
| QueryRootNotFirst           (* cypher_query.py, line 136 *)
| UnexpectedBlock             (* cypher_query.py, line 160 *)
| NoGlobalOperationsStart     (* cypher_query.py, line 164 *)
| UnexpectedGlobalOperations  (* cypher_query.py, line 179 *)
| NotOneElement               (* helpers.get_only_element_from_collection *)
| FoldExtraction              (* ir_lowering_common.extract_folds_from_ir_blocks *)
| UnsupportedEdgeShape        (* emit_sql.py, lines 83 and 199 *)
| UnsupportedCombinator (recursion_combinator : string). (* emit_sql.py, line 132 *)

(** What a [KeyError] reports as missing. *)
Inductive MissingKey :=
| MissingColumn (name : string)   (* [relation.c[name]] *)
| MissingNode (node_id : nat).    (* [node.recursion_to_column[recursive_node]] *)

Inductive Exception :=
| AssertionError (site : AssertionSite)
| TypeError        (* subscripting None, calling what cannot be called *)
| AttributeError   (* None.append, an attribute that is not there *)
| IndexError       (* indexing an empty list *)
| KeyError (key : MissingKey)
| ArgumentError    (* sqlalchemy.exc.ArgumentError: None where a relation is expected *)
| RecursionError.  (* the interpreter's recursion limit *)

Inductive result (A : Type) : Type :=
| Ok (a : A)
| Raise (e : Exception).
Arguments Ok {A} a.
Arguments Raise {A} e.

#[global] Instance result_ret : MRet result := fun A a => Ok a.
#[global] Instance result_bind : MBind result := fun A B k r =>
  match r with
  | Ok a => k a
  | Raise e => Raise e
  end.

Definition raises {A} (r : result A) : Prop := exists e, r = Raise e.
Definition returns {A} (r : result A) : Prop := exists a, r = Ok a.

(** ** IR blocks *)

Module blocks.

(** A location names a vertex binding; the lowering only compares and copies
    it. *)
Definition Location := string.

(** Modelled from the spec: the predicate and output expressions carried by
    [Filter] and [ConstructResult] ([expressions.py] is not part of the two
    modules); neither module ever inspects them. *)
Inductive Expression :=
| Literal (value : Z)
| LocalField (field_name : string)
| ContextField (location : Location) (field_name : string)
| OutputContextField (location : Location) (field_name : string)
| BinaryComposition (operator : string) (left right : Expression).

(** Modelled from the spec: the tagged variant of IR blocks ([blocks.py]),
    with the attributes the two modules read: [start_class], [target_class],
    [location], [direction], [depth]. *)
Inductive Block :=
| QueryRoot (start_class : gset string)
| Traverse (direction edge_name : string)
| Recurse (direction edge_name : string) (depth : Z)
| Backtrack (location : Location)
| MarkLocation (location : Location)
| CoerceType (target_class : gset string)
| Filter (predicate : Expression)
| Fold (fold_scope_location : Location)
| Unfold
| OutputSource
| EndOptional
| GlobalOperationsStart
| ConstructResult (fields : list (string * Expression)).

(** [type(block)] *)
Inductive BlockType :=
| TQueryRoot | TTraverse | TRecurse | TBacktrack | TMarkLocation | TCoerceType
| TFilter | TFold | TUnfold | TOutputSource | TEndOptional
| TGlobalOperationsStart | TConstructResult.

Definition type_of (b : Block) : BlockType :=
  match b with
  | QueryRoot _ => TQueryRoot
  | Traverse _ _ => TTraverse
  | Recurse _ _ _ => TRecurse
  | Backtrack _ => TBacktrack
  | MarkLocation _ => TMarkLocation
  | CoerceType _ => TCoerceType
  | Filter _ => TFilter
  | Fold _ => TFold
  | Unfold => TUnfold
  | OutputSource => TOutputSource
  | EndOptional => TEndOptional
  | GlobalOperationsStart => TGlobalOperationsStart
  | ConstructResult _ => TConstructResult
  end.

#[global] Instance BlockType_eq_dec : EqDecision BlockType.
Proof. solve_decision. Defined.

End blocks.

(** ** [compiler/cypher_query.py]: the step assembler *)

Module cypher_query.
Import blocks.

(** [CypherStep] and [CypherQuery] are the namedtuples of lines 23-40. *)
Record CypherStep := {
  linked_location : option Location;
  step_block : Block;
  step_types : gset string;
  where_block : option Block;
  as_block : Block }.

Record CypherQuery := {
  steps : list CypherStep;
  folds : gmap Location (list Block);
  global_where_block : option Block;
  output_block : Block }.

(** Lines 43-45: the three tuples of block types the main loop tests with
    [isinstance]. *)
Definition step_block_types : list BlockType := [TTraverse; TRecurse].
Definition linked_location_source_types : list BlockType := [TMarkLocation; TBacktrack].
Definition discarded_block_types : list BlockType := [TUnfold; TOutputSource; TEndOptional].

Definition isinstance (b : Block) (types : list BlockType) : bool :=
  bool_decide (type_of b ∈ types).

(** Modelled from the spec: [helpers.get_only_element_from_collection]
    ([helpers.py] is not part of the module): the single element of a
    collection of size one, an assertion failure for any other size. *)
Definition get_only_element_from_collection (one_element_collection : gset string)
  : result string :=
  match elements one_element_collection with
  | [x] => Ok x
  | _ => Raise (AssertionError NotOneElement)
  end.

Section assembler.

(** The query metadata table is passed along and never read. *)
Context {QueryMetadataTable : Type}.

Definition _get_all_supertypes_of_exact_type
    (query_metadata_table : QueryMetadataTable) (exact_type : string) : gset string :=
  {[ exact_type ]}.

Definition _make_query_root_cypher_step
    (query_metadata_table : QueryMetadataTable)
    (linked_location : option Location) (current_step_blocks : list Block)
  : result CypherStep :=
  match current_step_blocks with
  | [QueryRoot start_class as step_block; Filter _ as where_block;
     MarkLocation _ as as_block] =>
      exact_step_type ← get_only_element_from_collection start_class;
      Ok {| linked_location := linked_location; step_block := step_block;
            step_types := _get_all_supertypes_of_exact_type query_metadata_table
                            exact_step_type;
            where_block := Some where_block; as_block := as_block |}
  | [QueryRoot start_class as step_block; MarkLocation _ as as_block] =>
      exact_step_type ← get_only_element_from_collection start_class;
      Ok {| linked_location := linked_location; step_block := step_block;
            step_types := _get_all_supertypes_of_exact_type query_metadata_table
                            exact_step_type;
            where_block := None; as_block := as_block |}
  | _ => Raise (AssertionError UnexpectedStepBlocks)
  end.

(** [current_step_blocks] is [None] until the first [QueryRoot]; subscripting
    it then is a [TypeError]. *)
Definition _make_cypher_step
    (query_metadata_table : QueryMetadataTable)
    (linked_location : option Location) (current_step_blocks : option (list Block))
  : result CypherStep :=
  match current_step_blocks with
  | None => Raise TypeError
  | Some [] => Raise IndexError
  | Some (step_block :: remaining_blocks) =>
      if isinstance step_block [TQueryRoot] then
        _make_query_root_cypher_step query_metadata_table linked_location
          (step_block :: remaining_blocks)
      else
        match remaining_blocks with
        | [CoerceType target_class; Filter _ as where_block;
           MarkLocation _ as as_block] =>
            exact_step_type ← get_only_element_from_collection target_class;
            Ok {| linked_location := linked_location; step_block := step_block;
                  step_types := _get_all_supertypes_of_exact_type query_metadata_table
                                  exact_step_type;
                  where_block := Some where_block; as_block := as_block |}
        | [CoerceType target_class; MarkLocation _ as as_block] =>
            exact_step_type ← get_only_element_from_collection target_class;
            Ok {| linked_location := linked_location; step_block := step_block;
                  step_types := _get_all_supertypes_of_exact_type query_metadata_table
                                  exact_step_type;
                  where_block := None; as_block := as_block |}
        | _ => Raise (AssertionError UnexpectedStepBlocks)
        end
  end.

(** The local variables of [convert_to_cypher_query] that the loop of lines
    122-161 reads and writes. *)
Record Locals := {
  l_steps : list CypherStep;
  l_current_step_blocks : option (list Block);
  l_linked_location : option Location;
  l_next_linked_location : option Location;
  l_global_operations_index : option nat }.

Definition initial_locals : Locals :=
  {| l_steps := []; l_current_step_blocks := None; l_linked_location := None;
     l_next_linked_location := None; l_global_operations_index := None |}.

(** [current_step_blocks.append(block)] *)
Definition append (current_step_blocks : option (list Block)) (block : Block)
  : result (option (list Block)) :=
  match current_step_blocks with
  | None => Raise AttributeError
  | Some l => Ok (Some (l ++ [block]))
  end.

(** One iteration of the loop; the boolean is [true] when the iteration ends
    in [break]. *)
Definition loop_body (query_metadata_table : QueryMetadataTable)
    (st : Locals) (current_block_index : nat) (block : Block)
  : result (Locals * bool) :=
  if isinstance block [TGlobalOperationsStart] then
    cypher_step ← _make_cypher_step query_metadata_table
                    (l_linked_location st) (l_current_step_blocks st);
    Ok ({| l_steps := l_steps st ++ [cypher_step];
           l_current_step_blocks := None;
           l_linked_location := l_linked_location st;
           l_next_linked_location := l_next_linked_location st;
           l_global_operations_index := Some current_block_index |}, true)
  else if isinstance block [TQueryRoot] then
    match l_current_step_blocks st with
    | Some _ => Raise (AssertionError QueryRootNotFirst)
    | None =>
        Ok ({| l_steps := l_steps st;
               l_current_step_blocks := Some [block];
               l_linked_location := l_linked_location st;
               l_next_linked_location := l_next_linked_location st;
               l_global_operations_index := l_global_operations_index st |}, false)
    end
  else if isinstance block step_block_types then
    cypher_step ← _make_cypher_step query_metadata_table
                    (l_linked_location st) (l_current_step_blocks st);
    Ok ({| l_steps := l_steps st ++ [cypher_step];
           l_current_step_blocks := Some [block];
           l_linked_location := l_next_linked_location st;
           l_next_linked_location := None;
           l_global_operations_index := l_global_operations_index st |}, false)
  else if isinstance block linked_location_source_types then
    match block with
    | MarkLocation location =>
        current ← append (l_current_step_blocks st) block;
        Ok ({| l_steps := l_steps st;
               l_current_step_blocks := current;
               l_linked_location := l_linked_location st;
               l_next_linked_location := Some location;
               l_global_operations_index := l_global_operations_index st |}, false)
    | Backtrack location =>
        Ok ({| l_steps := l_steps st;
               l_current_step_blocks := l_current_step_blocks st;
               l_linked_location := l_linked_location st;
               l_next_linked_location := Some location;
               l_global_operations_index := l_global_operations_index st |}, false)
    | _ => Raise AttributeError
    end
  else if isinstance block discarded_block_types then
    Ok (st, false)
  else if isinstance block [TFilter; TCoerceType] then
    current ← append (l_current_step_blocks st) block;
    Ok ({| l_steps := l_steps st;
           l_current_step_blocks := current;
           l_linked_location := l_linked_location st;
           l_next_linked_location := l_next_linked_location st;
           l_global_operations_index := l_global_operations_index st |}, false)
  else
    Raise (AssertionError UnexpectedBlock).

(** [for current_block_index, block in enumerate(remaining_ir_blocks)] *)
Fixpoint for_loop (query_metadata_table : QueryMetadataTable)
    (st : Locals) (current_block_index : nat) (remaining : list Block)
  : result Locals :=
  match remaining with
  | [] => Ok st
  | block :: rest =>
      '(st', break) ← loop_body query_metadata_table st current_block_index block;
      if break : bool then Ok st'
      else for_loop query_metadata_table st' (S current_block_index) rest
  end.

(** Lines 163-183: what follows the first [GlobalOperationsStart]. *)
Definition global_operations (remaining_ir_blocks : list Block)
    (folds : gmap Location (list Block)) (st : Locals) : result CypherQuery :=
  match l_global_operations_index st with
  | None => Raise (AssertionError NoGlobalOperationsStart)
  | Some global_operations_index =>
      match drop (global_operations_index + 1) remaining_ir_blocks with
      | [Filter _ as global_where_block; ConstructResult _ as output_block] =>
          Ok {| steps := l_steps st; folds := folds;
                global_where_block := Some global_where_block;
                output_block := output_block |}
      | [ConstructResult _ as output_block] =>
          Ok {| steps := l_steps st; folds := folds;
                global_where_block := None;
                output_block := output_block |}
      | _ => Raise (AssertionError UnexpectedGlobalOperations)
      end
  end.

(** The fold extractor lives in [ir_lowering_common]; the assembler is stated
    over any extractor. The unused [type_equivalence_hints] is left out. *)
Definition convert_to_cypher_query
    (extract_folds_from_ir_blocks :
       list Block -> result (gmap Location (list Block) * list Block))
    (ir_blocks : list Block) (query_metadata_table : QueryMetadataTable)
  : result CypherQuery :=
  '(folds, remaining_ir_blocks) ← extract_folds_from_ir_blocks ir_blocks;
  st ← for_loop query_metadata_table initial_locals 0%nat remaining_ir_blocks;
  global_operations remaining_ir_blocks folds st.

End assembler.

(** Modelled from the spec: [ir_lowering_common.extract_folds_from_ir_blocks]
    (not part of the module): the blocks between a [Fold] and its [Unfold]
    are moved into the folds mapping under the fold's scope location, every
    other block stays in the stream, in order. *)
Fixpoint extract_folds_loop (folds : gmap Location (list Block))
    (remaining_ir_blocks current_folded_blocks : list Block)
    (in_fold_location : option Location) (ir_blocks : list Block)
  : result (gmap Location (list Block) * list Block) :=
  match ir_blocks with
  | [] => Ok (folds, remaining_ir_blocks)
  | block :: rest =>
      match block, in_fold_location with
      | Fold location, None =>
          extract_folds_loop folds remaining_ir_blocks [] (Some location) rest
      | Fold _, Some _ => Raise (AssertionError FoldExtraction)
      | Unfold, Some location =>
          extract_folds_loop (<[location := current_folded_blocks]> folds)
            remaining_ir_blocks [] None rest
      | Unfold, None => Raise (AssertionError FoldExtraction)
      | _, Some _ =>
          extract_folds_loop folds remaining_ir_blocks
            (current_folded_blocks ++ [block]) in_fold_location rest
      | _, None =>
          extract_folds_loop folds (remaining_ir_blocks ++ [block])
            current_folded_blocks in_fold_location rest
      end
  end.

Definition extract_folds_from_ir_blocks (ir_blocks : list Block)
  : result (gmap Location (list Block) * list Block) :=
  extract_folds_loop ∅ [] [] None ir_blocks.

End cypher_query.

(** ** SQLAlchemy expression objects

    [emit_sql.py] builds its statement out of SQLAlchemy objects and never
    renders them; they are kept as the terms the calls construct. *)

Module sqlalchemy.

Inductive SqlType := String_.

(** [element.alias()] makes a new object every time it is called. While a
    tree is emitted, each of the three calls in [emit_sql.py] is reached at
    most once for a node; the place of the call and the identity of the node
    tell the objects apart. *)
Inductive AliasOrigin :=
| NodeTable (node_id : nat)        (* emit_sql.py, line 148 *)
| RecursiveTable (node_id : nat)   (* emit_sql.py, lines 71 and 81 *)
| ParentColumns (node_id : nat).   (* emit_sql.py, line 87 *)

Inductive ColumnElement :=
| Column (table : FromClause) (name : string)      (* [table.c[name]] *)
| literal_column (text : string)
| Integer (value : Z)                              (* a bound Python int *)
| Text (value : string)                            (* a bound Python str *)
| cast (e : ColumnElement) (type_ : SqlType)
| concat (a b : ColumnElement)                     (* [a.concat(b)] *)
| add (a b : ColumnElement)                        (* [a + b] *)
| eq (a b : ColumnElement)                         (* [a == b] *)
| lt (a b : ColumnElement)                         (* [a < b] *)
| contains (a b : ColumnElement)                   (* [a.contains(b)] *)
| case (whens : list (ColumnElement * ColumnElement)) (else_ : ColumnElement)
| and_ (clauses : list ColumnElement)
| Label (e : ColumnElement) (name : option string) (* [e.label(name)] *)
with FromClause :=
| Table (name : string)
| Alias (element : FromClause) (origin : AliasOrigin)
                                                   (* [element.alias()] *)
| Subquery (element : Select)                      (* a select used as a relation *)
| Join (left right : FromClause) (onclause : ColumnElement) (isouter : bool)
| CTE (element : Select) (recursive : bool)        (* [element.cte(recursive)] *)
| Combined (operation : string) (cte : FromClause) (other : Select)
                                                   (* [getattr(cte, operation)(other)] *)
with Select :=
| select (columns : list ColumnElement) (distinct : bool)
         (froms : option FromClause) (whereclause : option ColumnElement).

(** [column.name]; an anonymous label is named after the column it labels. *)
Fixpoint name (c : ColumnElement) : option string :=
  match c with
  | Column _ n => Some n
  | Label _ (Some n) => Some n
  | Label e None => (fun n => n +:+ "_1") <$> name e
  | _ => None
  end.

Definition select_from (s : Select) (f : FromClause) : Select :=
  match s with
  | select columns distinct _ whereclause => select columns distinct (Some f) whereclause
  end.

Definition where_ (s : Select) (c : ColumnElement) : Select :=
  match s with
  | select columns distinct froms _ => select columns distinct froms (Some c)
  end.

End sqlalchemy.

(** ** [compiler/emit_sql.py]: the SQL tree emitter *)

Module emit_sql.
Import blocks sqlalchemy.

(** Modelled from the spec: the selection and predicate blocks of a query
    tree node ([ir_lowering_sql/sql_blocks.py] is not part of the module).
    The emitter assigns their [table] and calls [rename()] on selections;
    everything else about them is read by the metadata provider only. *)
Record Selection := {
  field_name : string;
  alias : string;
  selection_table : option FromClause;
  renamed : bool }.

Record Predicate := {
  filter_block : Block;
  predicate_table : option FromClause }.

(** The keys of [node.recursion_to_column]: a recursion node, known by its
    identity, or the relation built by [_create_recursive_clause]. *)
Inductive LinkKey :=
| NodeKey (node_id : nat)
| RelationKey (relation : FromClause).

(** Modelled from the spec: the query tree node ([ir_lowering_sql/sql_tree.py]
    is not part of the module), with the attributes the emitter reads and
    writes. [node_id] stands for the identity of the Python object and
    [parent_node] holds the identity of the parent. *)
Inductive SqlNode := {
  node_id : nat;
  parent_node : option nat;
  block : Block;
  relation : string;
  in_optional : bool;
  children_nodes : list SqlNode;
  recursions : list SqlNode;
  selections : list Selection;
  predicates : list Predicate;
  link_columns : list ColumnElement;
  recursion_to_column : list (LinkKey * ColumnElement);
  table : option FromClause;
  from_clause : option FromClause }.

(** The edges of [ir_lowering_sql/metadata.py]: a direct edge, a two-hop
    edge through a junction table, or anything else. *)
Record BasicEdge := {
  source_col : string;
  sink_col : string;
  table_name : string }.

Inductive Edge :=
| IsBasicEdge (edge : BasicEdge)
| IsMultiEdge (junction_edge final_edge : BasicEdge)
| OtherEdge.

(** The metadata provider, with the attributes and methods the emitter
    calls; the provider is not part of the module and its methods are taken
    to return. With them, what the schema and SQLAlchemy decide: whether a
    CTE object has an attribute ([hasattr]), whether a relation has a column
    of a given name ([name in relation.c]), and what calling an attribute of
    a CTE object on a query returns or raises ([getattr(cte, name)(query)]). *)
Record CompilerMetadata := {
  get_table : string -> FromClause;
  get_table_by_name : string -> FromClause;
  get_edge : SqlNode -> string -> Edge;
  get_on_clause_for_node : SqlNode -> list (FromClause * ColumnElement);
  get_column_for_block : Selection -> ColumnElement;
  get_predicate_condition : SqlNode -> Predicate -> ColumnElement;
  recursion_combinator : string;
  hasattr_cte : string -> bool;
  has_column : FromClause -> string -> bool;
  cte_attribute_call : string -> FromClause -> Select -> result FromClause }.

(** What [_query_tree_to_query] returns: the final statement for the root,
    [recursion_out_column] (possibly [None]) for any other node. *)
Inductive QueryResult :=
| Statement (query : Select)
| OutColumn (recursion_out_column : option ColumnElement).

(** Attribute assignment on a node: [node.attr = value]. *)
Definition set_selections (v : list Selection) (n : SqlNode) : SqlNode :=
  Build_SqlNode (node_id n) (parent_node n) (block n) (relation n) (in_optional n)
    (children_nodes n) (recursions n) v (predicates n) (link_columns n)
    (recursion_to_column n) (table n) (from_clause n).
Definition set_predicates (v : list Predicate) (n : SqlNode) : SqlNode :=
  Build_SqlNode (node_id n) (parent_node n) (block n) (relation n) (in_optional n)
    (children_nodes n) (recursions n) (selections n) v (link_columns n)
    (recursion_to_column n) (table n) (from_clause n).
Definition set_children_nodes (v : list SqlNode) (n : SqlNode) : SqlNode :=
  Build_SqlNode (node_id n) (parent_node n) (block n) (relation n) (in_optional n)
    v (recursions n) (selections n) (predicates n) (link_columns n)
    (recursion_to_column n) (table n) (from_clause n).
Definition set_recursions (v : list SqlNode) (n : SqlNode) : SqlNode :=
  Build_SqlNode (node_id n) (parent_node n) (block n) (relation n) (in_optional n)
    (children_nodes n) v (selections n) (predicates n) (link_columns n)
    (recursion_to_column n) (table n) (from_clause n).
Definition set_link_columns (v : list ColumnElement) (n : SqlNode) : SqlNode :=
  Build_SqlNode (node_id n) (parent_node n) (block n) (relation n) (in_optional n)
    (children_nodes n) (recursions n) (selections n) (predicates n) v
    (recursion_to_column n) (table n) (from_clause n).
Definition set_recursion_to_column (v : list (LinkKey * ColumnElement)) (n : SqlNode)
  : SqlNode :=
  Build_SqlNode (node_id n) (parent_node n) (block n) (relation n) (in_optional n)
    (children_nodes n) (recursions n) (selections n) (predicates n) (link_columns n)
    v (table n) (from_clause n).
Definition set_table (v : FromClause) (n : SqlNode) : SqlNode :=
  Build_SqlNode (node_id n) (parent_node n) (block n) (relation n) (in_optional n)
    (children_nodes n) (recursions n) (selections n) (predicates n) (link_columns n)
    (recursion_to_column n) (Some v) (from_clause n).
Definition set_from_clause (v : FromClause) (n : SqlNode) : SqlNode :=
  Build_SqlNode (node_id n) (parent_node n) (block n) (relation n) (in_optional n)
    (children_nodes n) (recursions n) (selections n) (predicates n) (link_columns n)
    (recursion_to_column n) (table n) (Some v).

(** Reading an attribute of [None] is an [AttributeError]. *)
Definition attr {A} (o : option A) : result A :=
  match o with
  | Some a => Ok a
  | None => Raise AttributeError
  end.

(** [relation.c[name]] and [relation.c.name]: a [KeyError], respectively an
    [AttributeError], when the relation has no column of that name. *)
Definition c_item (compiler_metadata : CompilerMetadata) (relation : FromClause)
    (name : string) : result ColumnElement :=
  if has_column compiler_metadata relation name then Ok (Column relation name)
  else Raise (KeyError (MissingColumn name)).
Definition c_attribute (compiler_metadata : CompilerMetadata) (relation : FromClause)
    (name : string) : result ColumnElement :=
  if has_column compiler_metadata relation name then Ok (Column relation name)
  else Raise AttributeError.

(** [d[key] = value] on an insertion-ordered dictionary. Nodes hash by
    identity; a relation built by the emitter is a new object, equal to no
    earlier key. *)
Fixpoint dict_set (d : list (LinkKey * ColumnElement)) (key : LinkKey)
    (value : ColumnElement) : list (LinkKey * ColumnElement) :=
  match d with
  | [] => [(key, value)]
  | (k, v) :: d' =>
      match k, key with
      | NodeKey i, NodeKey j =>
          if decide (i = j) then (k, value) :: d' else (k, v) :: dict_set d' key value
      | _, _ => (k, v) :: dict_set d' key value
      end
  end.

(** [d[node]] *)
Fixpoint dict_get (d : list (LinkKey * ColumnElement)) (id : nat)
  : result ColumnElement :=
  match d with
  | [] => Raise (KeyError (MissingNode id))
  | (NodeKey i, v) :: d' => if decide (i = id) then Ok v else dict_get d' id
  | _ :: d' => dict_get d' id
  end.

(** Modelled from the spec: [SqlNode.add_recursive_link_column] (the class
    is not part of the module): the column is recorded under the key and
    appended to the link columns. *)
Definition add_recursive_link_column (key : LinkKey) (column : ColumnElement)
    (node : SqlNode) : SqlNode :=
  set_link_columns (link_columns node ++ [column])
    (set_recursion_to_column (dict_set (recursion_to_column node) key column) node).

(** [block.table = table] and [selection.rename()]. *)
Definition selection_set_table (t : FromClause) (s : Selection) : Selection :=
  {| field_name := field_name s; alias := alias s;
     selection_table := Some t; renamed := renamed s |}.
Definition predicate_set_table (t : FromClause) (p : Predicate) : Predicate :=
  {| filter_block := filter_block p; predicate_table := Some t |}.
Definition rename (s : Selection) : Selection :=
  {| field_name := field_name s; alias := alias s;
     selection_table := selection_table s; renamed := true |}.

(** Passing [None] where SQLAlchemy expects a relation. *)
Definition relation_arg (o : option FromClause) : result FromClause :=
  match o with
  | Some f => Ok f
  | None => Raise ArgumentError
  end.

(** [block.direction] and [block.depth] *)
Definition direction_of (b : Block) : result string :=
  match b with
  | Traverse direction _ | Recurse direction _ _ => Ok direction
  | _ => Raise AttributeError
  end.
Definition depth_of (b : Block) : result Z :=
  match b with
  | Recurse _ _ depth => Ok depth
  | _ => Raise AttributeError
  end.

(** Lines 182-184; selections and predicates both have a [table]. *)
Definition _update_table_for_blocks {B} (set : FromClause -> B -> B)
    (table : FromClause) (blocks : list B) : list B :=
  map (set table) blocks.

(** Lines 147-154. *)
Definition _create_and_reference_table (node : SqlNode) (compiler_metadata : CompilerMetadata)
  : FromClause * SqlNode :=
  let table := Alias (get_table compiler_metadata (relation node)) (NodeTable (node_id node)) in
  let node := set_table table node in
  let node := set_from_clause table node in
  let node := set_selections
                (_update_table_for_blocks selection_set_table table (selections node)) node in
  let node := set_predicates
                (_update_table_for_blocks predicate_set_table table (predicates node)) node in
  (table, node).

(** Lines 158-164. *)
Definition _pull_up_node_blocks (node child_node : SqlNode) : SqlNode :=
  let node := set_selections (selections node ++ selections child_node) node in
  let node := set_predicates (predicates node ++ predicates child_node) node in
  let node := set_recursions (recursions node ++ recursions child_node) node in
  let node := set_recursion_to_column
                (fold_left (fun d '(recursion, link_column) => dict_set d recursion link_column)
                   (recursion_to_column child_node) (recursion_to_column node)) node in
  set_link_columns (link_columns node ++ link_columns child_node) node.

(** One of the two loops of lines 171-179: [isouter] tells [outerjoin] from
    [join]. *)
Fixpoint join_loop (isouter : bool) (node child_node : SqlNode)
    (onclauses : list (FromClause * ColumnElement)) : result SqlNode :=
  match onclauses with
  | [] => Ok node
  | (table, onclause) :: rest =>
      left ← attr (from_clause node);
      right ← relation_arg (from_clause child_node);
      join_loop isouter (set_from_clause (Join left right onclause isouter) node)
        child_node rest
  end.

(** Lines 167-179. *)
Definition _join_to_node (node child_node : SqlNode) (compiler_metadata : CompilerMetadata)
  : result SqlNode :=
  let onclauses := get_on_clause_for_node compiler_metadata child_node in
  if in_optional child_node then join_loop true node child_node onclauses
  else join_loop false node child_node onclauses.

(** Lines 187-199. *)
Definition _create_link_for_recursion (node recursion : SqlNode)
    (compiler_metadata : CompilerMetadata) : result SqlNode :=
  match get_edge compiler_metadata node (relation recursion) with
  | IsBasicEdge edge =>
      let from_col := source_col edge in
      node_table ← attr (table node);
      recursion_in_column ← c_item compiler_metadata node_table from_col;
      Ok (add_recursive_link_column (NodeKey (node_id recursion)) recursion_in_column node)
  | IsMultiEdge junction_edge _ =>
      let from_col := source_col junction_edge in
      node_table ← attr (table node);
      recursion_in_column ← c_item compiler_metadata node_table from_col;
      Ok (add_recursive_link_column (NodeKey (node_id recursion)) recursion_in_column node)
  | OtherEdge => Raise (AssertionError UnsupportedEdgeShape)
  end.

(** Lines 203-207. *)
Fixpoint links_loop (node : SqlNode) (recursions : list SqlNode)
    (compiler_metadata : CompilerMetadata) : result SqlNode :=
  match recursions with
  | [] => Ok node
  | recursion :: rest =>
      node ← _create_link_for_recursion node recursion compiler_metadata;
      links_loop node rest compiler_metadata
  end.

Definition _create_links_for_recursions (node : SqlNode)
    (compiler_metadata : CompilerMetadata) : result SqlNode :=
  if decide (length (recursions node) = 0%nat) then Ok node
  else links_loop node (recursions node) compiler_metadata.

(** The second loop of [_collapse_query_tree], lines 55-59. *)
Fixpoint pull_up_loop (node : SqlNode) (children : list SqlNode)
    (compiler_metadata : CompilerMetadata) : result SqlNode :=
  match children with
  | [] => Ok node
  | child_node :: rest =>
      let node := _pull_up_node_blocks node child_node in
      node ← _join_to_node node child_node compiler_metadata;
      pull_up_loop node rest compiler_metadata
  end.

(** Lines 47-59. The children are collapsed in place, so the node keeps the
    collapsed children. The dictionary [location_to_selectable] is passed
    along by the source and never read or written; it is left out. *)
Fixpoint _collapse_query_tree (compiler_metadata : CompilerMetadata) (node : SqlNode)
    {struct node} : result SqlNode :=
  let fix collapse_children (children : list SqlNode) : result (list SqlNode) :=
    match children with
    | [] => Ok []
    | child_node :: rest =>
        child_node ← _collapse_query_tree compiler_metadata child_node;
        rest ← collapse_children rest;
        Ok (child_node :: rest)
    end in
  match node with
  | Build_SqlNode _ _ _ _ _ children _ _ _ _ _ _ _ =>
      children ← collapse_children children;
      let node := set_children_nodes children node in
      let '(table, node) := _create_and_reference_table node compiler_metadata in
      node ← _create_links_for_recursions node compiler_metadata;
      pull_up_loop node children compiler_metadata
  end.

(** Lines 63-83 of [_create_recursive_clause]: the columns the edge names,
    the base column and the relation the recursion traverses, as
    [(source_col, sink_col, base_col, base_column, recursive_table)]. *)
Definition recursive_edge (node : SqlNode) (compiler_metadata : CompilerMetadata)
  : result (string * string * string * ColumnElement * FromClause) :=
  match get_edge compiler_metadata node (relation node) with
  | IsBasicEdge edge =>
      let base_col := source_col edge in
      node_table ← attr (table node);
      base_column ← c_item compiler_metadata node_table base_col;
      direction ← direction_of (block node);
      let '(source, sink) :=
        if decide (direction = "in") then (sink_col edge, source_col edge)
        else (source_col edge, sink_col edge) in
      Ok (source, sink, base_col, base_column,
          Alias (get_table compiler_metadata (relation node)) (RecursiveTable (node_id node)))
  | IsMultiEdge traversal_edge final_edge =>
      let base_col := source_col traversal_edge in
      node_table ← attr (table node);
      base_column ← c_item compiler_metadata node_table base_col;
      direction ← direction_of (block node);
      let '(source, sink) :=
        if decide (direction = "in") then (sink_col traversal_edge, source_col final_edge)
        else (source_col final_edge, sink_col traversal_edge) in
      Ok (source, sink, base_col, base_column,
          Alias (get_table_by_name compiler_metadata (table_name traversal_edge))
            (RecursiveTable (node_id node)))
  | OtherEdge => Raise (AssertionError UnsupportedEdgeShape)
  end.

(** The local variables of [_create_recursive_clause] when line 130 is
    reached. *)
Record RecursiveClause := {
  rc_source_col : string;
  rc_sink_col : string;
  rc_base_col : string;
  rc_base_column : ColumnElement;
  rc_recursive_table : FromClause;
  rc_anchor_query : Select;
  rc_recursive_cte : FromClause;
  rc_recursive_query : Select }.

(** Lines 63-129: the anchor query and the recursive query are built before
    the combinator is looked at. The columns are looked up in the order in
    which Python evaluates the expressions; a lookup that has succeeded is
    written once, since the same lookup gives the same column again. *)
Definition recursive_clause_queries (node : SqlNode) (compiler_metadata : CompilerMetadata)
    (out_link_column : option ColumnElement) : result RecursiveClause :=
  '(source, sink, base_col, base_column, recursive_table) ←
    recursive_edge node compiler_metadata;
  node_table ← attr (table node);
  out_link_column ← attr out_link_column;
  out_link_name ← attr (name out_link_column);
  parent_cte_column ← c_item compiler_metadata node_table out_link_name;
  let distinct_parent_column_query :=
    Alias (Subquery (select [Label parent_cte_column (Some "link")] true None None))
      (ParentColumns (node_id node)) in
  link ← c_item compiler_metadata distinct_parent_column_query "link";
  let anchor_query :=
    select_from
      (select [ Label base_column (Some source);
                Label base_column (Some sink);
                Label (literal_column "0") (Some "__depth_internal_name");
                Label (concat (cast base_column String_) (Text ",")) (Some "path") ]
         true None None)
      (Join node_table distinct_parent_column_query (eq base_column link) false) in
  let recursive_cte := CTE anchor_query true in
  table_source ← c_item compiler_metadata recursive_table source;
  cte_sink ← c_item compiler_metadata recursive_cte sink;
  cte_depth ← c_item compiler_metadata recursive_cte "__depth_internal_name";
  cte_path ← c_attribute compiler_metadata recursive_cte "path";
  table_sink ← c_item compiler_metadata recursive_table sink;
  cte_source ← c_item compiler_metadata recursive_cte source;
  depth ← depth_of (block node);
  let recursive_query :=
    where_
      (select_from
         (select [ table_source;
                   cte_sink;
                   Label (add cte_depth (Integer 1)) (Some "__depth_internal_name");
                   Label (concat (concat cte_path (cast table_source String_)) (Text ","))
                     (Some "path") ]
            false None None)
         (Join recursive_table recursive_cte (eq table_sink cte_source) false))
      (and_ [ lt cte_depth (Integer depth);
              eq (case [ (contains cte_path (cast table_source String_), Integer 1) ]
                    (Integer 0))
                 (Integer 0) ]) in
  Ok {| rc_source_col := source; rc_sink_col := sink; rc_base_col := base_col;
        rc_base_column := base_column; rc_recursive_table := recursive_table;
        rc_anchor_query := anchor_query; rc_recursive_cte := recursive_cte;
        rc_recursive_query := recursive_query |}.

(** Lines 62-144. Returns [out_link_column] and the node as the call leaves
    it. *)
Definition _create_recursive_clause (node : SqlNode) (compiler_metadata : CompilerMetadata)
    (out_link_column : option ColumnElement) : result (ColumnElement * SqlNode) :=
  clause ← recursive_clause_queries node compiler_metadata out_link_column;
  let recursion_combinator := recursion_combinator compiler_metadata in
  if negb (hasattr_cte compiler_metadata recursion_combinator) then
    Raise (AssertionError (UnsupportedCombinator recursion_combinator))
  else
    recursive_query ← cte_attribute_call compiler_metadata recursion_combinator
                        (rc_recursive_cte clause) (rc_recursive_query clause);
    node_from ← attr (from_clause node);
    joined_column ← c_item compiler_metadata recursive_query (rc_source_col clause);
    let node :=
      set_from_clause
        (Join node_from recursive_query (eq (rc_base_column clause) joined_column) false)
        node in
    sink_column ← c_item compiler_metadata recursive_query (rc_sink_col clause);
    let out_link_column := Label sink_column None in
    let node := add_recursive_link_column (RelationKey recursive_query) out_link_column node in
    Ok (out_link_column, node).

(** Lines 247-251; [predicates] is [None] or a list. *)
Definition _create_query (node : SqlNode) (columns : list ColumnElement)
    (predicates : option (list ColumnElement)) : result Select :=
  node_from ← relation_arg (from_clause node);
  let query := select_from (select columns true None None) node_from in
  match predicates with
  | None => Ok query
  | Some predicates => Ok (where_ query (and_ predicates))
  end.

(** Lines 236-244. *)
Definition _create_base_query (node : SqlNode) (compiler_metadata : CompilerMetadata)
  : result Select :=
  let selection_columns := map (get_column_for_block compiler_metadata) (selections node) in
  let selection_columns := selection_columns ++ link_columns node in
  let predicates :=
    map (get_predicate_condition compiler_metadata node) (predicates node) in
  _create_query node selection_columns (Some predicates).

(** Lines 218-223. *)
Definition _create_final_query (node : SqlNode) (compiler_metadata : CompilerMetadata)
  : result Select :=
  let columns := map (get_column_for_block compiler_metadata) (selections node) in
  _create_query node columns None.

(** Lines 226-233. *)
Definition _wrap_query_as_cte (node : SqlNode) (query : Select) : SqlNode :=
  let cte := CTE query false in
  let node := set_from_clause cte node in
  let node := set_table cte node in
  let node := set_selections
                (_update_table_for_blocks selection_set_table cte (selections node)) node in
  set_selections (map rename (selections node)) node.

(** Lines 210-215. The Python function has no [compiler_metadata]; it is
    passed here for the columns of the relations. *)
Definition _join_to_recursive_node (compiler_metadata : CompilerMetadata) (node : SqlNode)
    (recursion_in_column : ColumnElement) (recursive_node : SqlNode)
    (recursion_out_column : option ColumnElement) : result SqlNode :=
  node_table ← attr (table node);
  in_name ← attr (name recursion_in_column);
  current_cte_column ← c_item compiler_metadata node_table in_name;
  recursive_table ← attr (table recursive_node);
  recursion_out_column ← attr recursion_out_column;
  out_name ← attr (name recursion_out_column);
  recursive_cte_column ← c_item compiler_metadata recursive_table out_name;
  node_from ← attr (from_clause node);
  recursive_from ← relation_arg (from_clause recursive_node);
  Ok (set_from_clause
        (Join node_from recursive_from (eq current_cte_column recursive_cte_column) false)
        node).

(** What the caller of [_query_tree_to_query] can use as a column: the
    statement returned for a node without parent has no [name]. *)
Definition as_out_column (r : QueryResult) : result (option ColumnElement) :=
  match r with
  | OutColumn c => Ok c
  | Statement _ => Raise AttributeError
  end.

(** The loop of lines 36-43. [call] is the recursive call of line 39, which
    leaves the recursive node changed; the nodes of [node.recursions] are
    returned as the calls left them. The copies of these nodes held by the
    collapsed children are not read again and are left as they were. *)
Fixpoint traverse_loop (compiler_metadata : CompilerMetadata)
    (call : SqlNode -> option ColumnElement -> result (QueryResult * SqlNode))
    (node : SqlNode) (recursions : list SqlNode) (recursive_selections : list Selection)
  : result (SqlNode * list SqlNode * list Selection) :=
  match recursions with
  | [] => Ok (node, [], recursive_selections)
  | recursive_node :: rest =>
      recursion_in_column ← dict_get (recursion_to_column node) (node_id recursive_node);
      '(returned, recursive_node) ← call recursive_node (Some recursion_in_column);
      let recursive_selections := recursive_selections ++ selections recursive_node in
      recursion_out_column ← as_out_column returned;
      node ← _join_to_recursive_node compiler_metadata node recursion_in_column
               recursive_node recursion_out_column;
      '(node, rest, recursive_selections) ←
        traverse_loop compiler_metadata call node rest recursive_selections;
      Ok (node, recursive_node :: rest, recursive_selections)
  end.

(** Lines 34-44. *)
Definition _traverse_recursions (compiler_metadata : CompilerMetadata)
    (call : SqlNode -> option ColumnElement -> result (QueryResult * SqlNode))
    (node : SqlNode) : result SqlNode :=
  '(node, recursions, recursive_selections) ←
    traverse_loop compiler_metadata call node (recursions node) [];
  let node := set_recursions recursions node in
  Ok (set_selections (selections node ++ recursive_selections) node).

(** Lines 12-31. The call returns what the Python function returns and the
    node as the call leaves it. The recursion of Python is bounded by its
    stack; here by [fuel]. *)
Fixpoint _query_tree_to_query (fuel : nat) (compiler_metadata : CompilerMetadata)
    (node : SqlNode) (recursion_in_column : option ColumnElement)
  : result (QueryResult * SqlNode) :=
  match fuel with
  | O => Raise RecursionError
  | S fuel =>
      node ← _collapse_query_tree compiler_metadata node;
      '(recursion_out_column, node) ←
        match block node with
        | Recurse _ _ _ =>
            '(column, node) ← _create_recursive_clause node compiler_metadata
                                recursion_in_column;
            Ok (Some column, node)
        | _ => Ok (None, node)
        end;
      query ← _create_base_query node compiler_metadata;
      let node := _wrap_query_as_cte node query in
      node ← _traverse_recursions compiler_metadata
               (_query_tree_to_query fuel compiler_metadata) node;
      match parent_node node with
      | None =>
          final ← _create_final_query node compiler_metadata;
          Ok (Statement final, node)
      | Some _ => Ok (OutColumn recursion_out_column, node)
      end
  end.

(** Lines 7-9. *)
Definition emit_code_from_ir (fuel : nat) (sql_query_tree : SqlNode)
    (compiler_metadata : CompilerMetadata) : result QueryResult :=
  '(returned, _) ← _query_tree_to_query fuel compiler_metadata sql_query_tree None;
  Ok returned.

End emit_sql.
(** * Vocabulary of the statements *)

Import blocks cypher_query.

Definition opens_step (b : Block) : bool := isinstance b [TQueryRoot; TTraverse; TRecurse].
Definition kept (b : Block) : bool :=
  isinstance b [TQueryRoot; TTraverse; TRecurse; TMarkLocation; TFilter; TCoerceType].

Definition blocks_of_step (s : CypherStep) : list Block :=
  step_block s
  :: (if isinstance (step_block s) [TQueryRoot] then [] else [CoerceType (step_types s)])
  ++ option_list (where_block s) ++ [as_block s].

Definition declared_types (b : Block) : option (gset string) :=
  match b with
  | QueryRoot start_class => Some start_class
  | CoerceType target_class => Some target_class
  | _ => None
  end.

Record wf_step (s : CypherStep) : Prop := {
  wf_opens : opens_step (step_block s) = true;
  wf_root : forall start_class, step_block s = QueryRoot start_class -> start_class = step_types s;
  wf_types : exists t, step_types s = {[ t ]};
  wf_where : where_block s = None \/ exists p, where_block s = Some (Filter p);
  wf_as : exists l, as_block s = MarkLocation l }.

Record Inv (st : Locals) (pre : list Block) : Prop := {
  inv_index : l_global_operations_index st = None;
  inv_kept : List.filter kept pre
             = flat_map blocks_of_step (l_steps st) ++ default [] (l_current_step_blocks st);
  inv_wf : Forall wf_step (l_steps st);
  inv_current : match l_current_step_blocks st with
                | None => l_steps st = []
                | Some buf => exists b rest, buf = b :: rest /\ opens_step b = true
                end;
  inv_no_gos : GlobalOperationsStart ∉ pre }.


(** The six block-type shapes of a step buffer (section 4.1 of the
    specification). *)
Definition allowed_shapes : list (list BlockType) :=
  [ [TQueryRoot; TMarkLocation];
    [TQueryRoot; TFilter; TMarkLocation];
    [TTraverse; TCoerceType; TMarkLocation];
    [TTraverse; TCoerceType; TFilter; TMarkLocation];
    [TRecurse; TCoerceType; TMarkLocation];
    [TRecurse; TCoerceType; TFilter; TMarkLocation] ].

(** The type collection a step buffer hands to
    [get_only_element_from_collection]. *)
Definition buffer_types (buf : list Block) : option (gset string) :=
  match buf with
  | QueryRoot start_class :: _ => Some start_class
  | _ :: CoerceType target_class :: _ => Some target_class
  | _ => None
  end.

(** The two shapes allowed after [GlobalOperationsStart]. *)
Definition trailing_ok (post : list Block) : Prop :=
  map type_of post = [TConstructResult] \/ map type_of post = [TFilter; TConstructResult].

(** A [QueryRoot] or [CoerceType] whose collection is not a singleton. *)
Definition bad_types (b : Block) : Prop :=
  exists X, declared_types b = Some X /\ size X <> 1%nat.

(** The example stream of section 8 of the specification. *)
Definition age_gt_0 : Expression :=
  BinaryComposition ">" (LocalField "age") (Literal 0).

Definition example_stream (L1 L2 : Location) (outputs : list (string * Expression))
  : list Block :=
  [ QueryRoot {[ "Animal" ]}; MarkLocation L1; Traverse "out" "ParentOf";
    CoerceType {[ "Animal" ]}; Filter age_gt_0; MarkLocation L2;
    GlobalOperationsStart; ConstructResult outputs ].

(** What the assembler returns on [example_stream]. *)
Definition example_query (L1 L2 : Location) (outputs : list (string * Expression))
    (fs : gmap Location (list Block)) : CypherQuery :=
  {| steps :=
       [ {| linked_location := None;
            step_block := QueryRoot {[ "Animal" ]};
            step_types := {[ "Animal" ]};
            where_block := None;
            as_block := MarkLocation L1 |};
         {| linked_location := Some L1;
            step_block := Traverse "out" "ParentOf";
            step_types := {[ "Animal" ]};
            where_block := Some (Filter age_gt_0);
            as_block := MarkLocation L2 |} ];
     folds := fs;
     global_where_block := None;
     output_block := ConstructResult outputs |}.

(** The steps of a query: the first one is the step of the [QueryRoot] and
    is linked to no location; every later one is the step of a [Traverse] or
    a [Recurse] and is linked to a location. *)
Definition later_step (s : CypherStep) : Prop :=
  isinstance (step_block s) [TTraverse; TRecurse] = true /\ linked_location s <> None.

Definition steps_shape (ss : list CypherStep) : Prop :=
  match ss with
  | [] => True
  | s :: rest =>
      isinstance (step_block s) [TQueryRoot] = true /\ linked_location s = None
      /\ Forall later_step rest
  end.

(** What the loop keeps about the linked locations. *)
Record LinkInv (st : Locals) : Prop := {
  li_index : l_global_operations_index st = None;
  li_steps : steps_shape (l_steps st);
  li_current : match l_current_step_blocks st with
               | None => l_steps st = [] /\ l_linked_location st = None
               | Some buf =>
                   exists b rest, buf = b :: rest /\
                     match l_steps st with
                     | [] => isinstance b [TQueryRoot] = true
                             /\ l_linked_location st = None
                     | _ :: _ => isinstance b [TTraverse; TRecurse] = true
                                 /\ l_linked_location st <> None
                     end
               end;
  li_next : forall buf location,
              l_current_step_blocks st = Some buf -> MarkLocation location ∈ buf ->
              l_next_linked_location st <> None }.

(** The state of the loop with another index of [GlobalOperationsStart]. *)
Definition with_index (i : option nat) (st : Locals) : Locals :=
  {| l_steps := l_steps st;
     l_current_step_blocks := l_current_step_blocks st;
     l_linked_location := l_linked_location st;
     l_next_linked_location := l_next_linked_location st;
     l_global_operations_index := i |}.

(** The state of the loop with the index of [GlobalOperationsStart], if it
    has one, moved [d] blocks further. *)
Definition shift_index (d : nat) (st : Locals) : Locals :=
  with_index ((fun i => (i + d)%nat) <$> l_global_operations_index st) st.

(** An [AssertionError], raised at any of the sites. *)
Definition is_assertion (e : Exception) : Prop := exists site, e = AssertionError site.

(** The blocks the loop passes without looking at the step buffer. *)
Definition passed_over (b : Block) : Prop :=
  isinstance b (TBacktrack :: discarded_block_types) = true.

(** * Vocabulary of the statements about the SQL emitter *)

Import sqlalchemy emit_sql.

(** ** An example schema and example trees *)

(** A metadata provider over tables named after the relations, whose backend
    combines the two halves of a recursion with [combinator] and for which
    every edge is [edge]. Every relation has a column of every name but
    [no_such_column]. A CTE has the attributes [union], [union_all] and
    [name]; the first two are methods and the last one is a string, which
    cannot be called. *)
Definition example_metadata (combinator : string) (edge : Edge) : CompilerMetadata := {|
  get_table := Table;
  get_table_by_name := Table;
  get_edge := fun _ _ => edge;
  get_on_clause_for_node := fun child =>
    match table child with
    | Some t => [(t, eq (Column (Table "Animal") "uuid") (Column t "parent"))]
    | None => []
    end;
  get_column_for_block := fun selection =>
    match selection_table selection with
    | Some t =>
        if renamed selection then Column t (alias selection)
        else Label (Column t (field_name selection)) (Some (alias selection))
    | None => Label (literal_column (field_name selection)) (Some (alias selection))
    end;
  get_predicate_condition := fun _ predicate =>
    match predicate_table predicate with
    | Some t => lt (Integer 0) (Column t "age")
    | None => lt (Integer 0) (literal_column "age")
    end;
  recursion_combinator := combinator;
  hasattr_cte := fun attribute => bool_decide (attribute ∈ ["union"; "union_all"; "name"]);
  has_column := fun _ name => bool_decide (name <> "no_such_column");
  cte_attribute_call := fun attribute cte query =>
    if bool_decide (attribute ∈ ["union"; "union_all"]) then Ok (Combined attribute cte query)
    else Raise TypeError |}.

Definition parent_edge : Edge :=
  IsBasicEdge {| source_col := "uuid"; sink_col := "parent"; table_name := "Animal" |}.

Definition fresh_node (id : nat) (parent : option nat) (b : Block) (rel : string)
    (optional : bool) (children recs : list SqlNode) (sels : list Selection) : SqlNode := {|
  node_id := id; parent_node := parent; block := b; relation := rel;
  in_optional := optional; children_nodes := children; recursions := recs;
  selections := sels; predicates := []; link_columns := []; recursion_to_column := [];
  table := None; from_clause := None |}.

Definition output (field out_name : string) : Selection :=
  {| field_name := field; alias := out_name; selection_table := None; renamed := false |}.

(** The tree of [Animal { name, out_Animal_ParentOf @optional? { name } }]. *)
Definition example_child (optional : bool) : SqlNode :=
  fresh_node 1 (Some 0%nat) (Traverse "out" "Animal_ParentOf") "Animal" optional [] []
    [output "name" "child_name"].

Definition example_tree (optional : bool) : SqlNode :=
  fresh_node 0 None (QueryRoot {[ "Animal" ]}) "Animal" false [example_child optional] []
    [output "name" "animal_name"].

(** The tree of [Animal { name, out_Animal_ParentOf @recurse(depth: d) { name } }]. *)
Definition example_recursion (d : Z) : SqlNode :=
  fresh_node 1 (Some 0%nat) (Recurse "out" "Animal_ParentOf" d) "Animal" false [] []
    [output "name" "descendant_name"].

Definition example_recursive_tree (d : Z) : SqlNode :=
  fresh_node 0 None (QueryRoot {[ "Animal" ]}) "Animal" false [] [example_recursion d]
    [output "name" "animal_name"].

(** ** Joins *)

(** [f] joined to [g] once for every on-clause, all joins of the same kind. *)
Definition join_all (isouter : bool) (f g : FromClause)
    (onclauses : list (FromClause * ColumnElement)) : FromClause :=
  fold_left (fun joined '(_, onclause) => Join joined g onclause isouter) onclauses f.

(** The relation [f] with the kind of its [n] outermost joins set to
    [isouter], and nothing else changed. *)
Fixpoint set_join_kind (n : nat) (isouter : bool) (f : FromClause) : FromClause :=
  match n, f with
  | S n, Join l r onclause _ => Join (set_join_kind n isouter l) r onclause isouter
  | _, _ => f
  end.

(** The node with another optional flag, and nothing else changed. *)
Definition set_in_optional (v : bool) (n : SqlNode) : SqlNode :=
  Build_SqlNode (node_id n) (parent_node n) (block n) (relation n) v
    (children_nodes n) (recursions n) (selections n) (predicates n) (link_columns n)
    (recursion_to_column n) (table n) (from_clause n).

(** ** Walks over a tree *)

(** A loop that calls [f] on every element and stops at the first error. *)
Fixpoint for_each {A B} (f : A -> result B) (l : list A) : result (list B) :=
  match l with
  | [] => Ok []
  | a :: l => b ← f a; bs ← for_each f l; Ok (b :: bs)
  end.

(** The selections of a tree in the order of a walk that visits a node
    before its children and the children in their order; every selection
    refers to the aliased table of the node it comes from. *)
Fixpoint tree_selections (md : CompilerMetadata) (node : SqlNode) : list Selection :=
  match node with
  | Build_SqlNode id _ _ relation _ children _ selections _ _ _ _ _ =>
      map (selection_set_table (Alias (get_table md relation) (NodeTable id))) selections
      ++ flat_map (tree_selections md) children
  end.

(** The predicates of a tree, in the same order. *)
Fixpoint tree_predicates (md : CompilerMetadata) (node : SqlNode) : list Predicate :=
  match node with
  | Build_SqlNode id _ _ relation _ children _ _ predicates _ _ _ _ =>
      map (predicate_set_table (Alias (get_table md relation) (NodeTable id))) predicates
      ++ flat_map (tree_predicates md) children
  end.

(** The recursions hanging off a tree, in the same order. *)
Fixpoint tree_recursions (node : SqlNode) : list SqlNode :=
  match node with
  | Build_SqlNode _ _ _ _ _ children recursions _ _ _ _ _ _ =>
      recursions ++ flat_map tree_recursions children
  end.

(** How deep the recursions of a tree nest: a recursion hanging off the
    tree, at a node or at a child of any depth, counts one more than the
    recursions that hang off it; a tree without recursions counts 0. *)
Fixpoint recursion_depth (node : SqlNode) : nat :=
  match node with
  | Build_SqlNode _ _ _ _ _ children recursions _ _ _ _ _ _ =>
      max (list_max (map recursion_depth children))
          (list_max (map (fun r => S (recursion_depth r)) recursions))
  end.

(** The node with another from-clause, possibly none, and nothing else
    changed. *)
Definition with_from_clause (v : option FromClause) (n : SqlNode) : SqlNode :=
  Build_SqlNode (node_id n) (parent_node n) (block n) (relation n) (in_optional n)
    (children_nodes n) (recursions n) (selections n) (predicates n) (link_columns n)
    (recursion_to_column n) (table n) v.

(** The relations joined to a from-clause, the first joined first, and the
    relation they are joined to. *)
Fixpoint joined_relations (f : FromClause) : list FromClause :=
  match f with
  | Join l r _ _ => joined_relations l ++ [r]
  | _ => []
  end.

Fixpoint first_relation (f : FromClause) : FromClause :=
  match f with
  | Join l _ _ _ => first_relation l
  | _ => f
  end.

(** The relations a child adds to the from-clause of its parent: its own
    from-clause, once for every on-clause. *)
Definition child_joins (md : CompilerMetadata) (child : SqlNode) : list FromClause :=
  match from_clause child with
  | Some g => replicate (length (get_on_clause_for_node md child)) g
  | None => []
  end.

(** The node with other link columns and another dictionary of them, and
    nothing else changed. *)
Definition with_links (columns : list ColumnElement)
    (d : list (LinkKey * ColumnElement)) (n : SqlNode) : SqlNode :=
  set_link_columns columns (set_recursion_to_column d n).

(** [id in d], for the identity of a node. *)
Definition has_key (d : list (LinkKey * ColumnElement)) (id : nat) : Prop :=
  returns (dict_get d id).

(** The aliased table of a node. *)
Definition node_alias (md : CompilerMetadata) (node : SqlNode) : FromClause :=
  Alias (get_table md (relation node)) (NodeTable (node_id node)).

(** The errors of linking a recursion to a node: an edge that is neither a
    [BasicEdge] nor a [MultiEdge], or an edge whose source column the table
    of the node does not have. *)
Definition link_error (e : Exception) : Prop :=
  e = AssertionError UnsupportedEdgeShape \/ exists name, e = KeyError (MissingColumn name).

Definition edge_error_only {A} (r : result A) : Prop :=
  forall e, r = Raise e -> link_error e.

(** A schema in which every edge is of a known kind and names columns that
    every relation has. *)
Definition links_resolve (md : CompilerMetadata) : Prop :=
  (forall node relation, get_edge md node relation <> OtherEdge)
  /\ (forall relation name, has_column md relation name = true).

(** What none of the steps of [_collapse_query_tree] changes once the
    children are collapsed. *)
Definition header (n : SqlNode)
  : nat * option nat * Block * string * bool * list SqlNode * option FromClause :=
  (node_id n, parent_node n, block n, relation n, in_optional n, children_nodes n, table n).

(** What [_collapse_query_tree] makes of a tree. *)
Record collapsed (md : CompilerMetadata) (node node' : SqlNode) : Prop := {
  c_id : node_id node' = node_id node;
  c_parent : parent_node node' = parent_node node;
  c_block : block node' = block node;
  c_relation : relation node' = relation node;
  c_optional : in_optional node' = in_optional node;
  c_children : Forall2 (fun c c' => _collapse_query_tree md c = Ok c')
                 (children_nodes node) (children_nodes node');
  c_selections : selections node' = tree_selections md node;
  c_predicates : predicates node' = tree_predicates md node;
  c_recursions : recursions node' = tree_recursions node;
  c_table : table node' = Some (node_alias md node);
  c_from : exists f, from_clause node' = Some f
             /\ first_relation f = node_alias md node
             /\ joined_relations f = flat_map (child_joins md) (children_nodes node');
  c_keys : Forall (fun r => has_key (recursion_to_column node') (node_id r))
             (recursions node') }.

(** What a call returns, or [d] when it raises. *)
Definition or_else {A} (r : result A) (d : A) : A :=
  match r with
  | Ok a => a
  | Raise _ => d
  end.

(** An example with two children, the second one optional and joined on two
    columns, over a schema in which every relation has every column. *)
Definition two_clause_metadata : CompilerMetadata := {|
  get_table := Table;
  get_table_by_name := Table;
  get_edge := fun _ _ => parent_edge;
  get_on_clause_for_node := fun child =>
    match table child with
    | Some t =>
        if in_optional child then
          [ (t, eq (Column (Table "Animal") "uuid") (Column t "parent"));
            (t, eq (Column (Table "Animal") "species") (Column t "species")) ]
        else [ (t, eq (Column (Table "Animal") "uuid") (Column t "parent")) ]
    | None => []
    end;
  get_column_for_block := get_column_for_block (example_metadata "union" parent_edge);
  get_predicate_condition := get_predicate_condition (example_metadata "union" parent_edge);
  recursion_combinator := "union";
  hasattr_cte := hasattr_cte (example_metadata "union" parent_edge);
  has_column := fun _ _ => true;
  cte_attribute_call := cte_attribute_call (example_metadata "union" parent_edge) |}.

Definition example_family : SqlNode :=
  fresh_node 0 None (QueryRoot {[ "Animal" ]}) "Animal" false
    [ fresh_node 1 (Some 0%nat) (Traverse "out" "Animal_ParentOf") "Animal" false
        [ fresh_node 3 (Some 1%nat) (Traverse "out" "Animal_OfSpecies") "Species" false [] []
            [output "name" "child_species"] ]
        [] [output "name" "child_name"];
      fresh_node 2 (Some 0%nat) (Traverse "in" "Animal_ParentOf") "Animal" true [] []
        [output "name" "parent_name"] ]
    [] [output "name" "animal_name"].

(** ** The order of the output *)

(** The names of the outputs of a tree, a node before its children. *)
Fixpoint tree_aliases (node : SqlNode) : list string :=
  match node with
  | Build_SqlNode _ _ _ _ _ children _ selections _ _ _ _ _ =>
      map alias selections ++ flat_map tree_aliases children
  end.

(** The names of the outputs of the recursions hanging off a tree, each
    recursion with the recursions hanging off it. *)
Fixpoint recursion_aliases (node : SqlNode) : list string :=
  match node with
  | Build_SqlNode _ _ _ _ _ children recursions _ _ _ _ _ _ =>
      flat_map (fun r => tree_aliases r ++ recursion_aliases r) recursions
      ++ flat_map recursion_aliases children
  end.

(** The names of the outputs in the order of the input: the tree first, then
    every recursion. *)
Definition output_aliases (node : SqlNode) : list string :=
  tree_aliases node ++ recursion_aliases node.

(** A selection that [_wrap_query_as_cte] has seen: it is renamed and refers
    to a CTE. *)
Definition wrapped (s : Selection) : Prop :=
  renamed s = true /\ exists q, selection_table s = Some (CTE q false).

(** What a call of [_query_tree_to_query] on [node] returns and makes of the
    node. *)
Record emitted (md : CompilerMetadata) (node : SqlNode) (returned : QueryResult)
    (node' : SqlNode) : Prop := {
  e_id : node_id node' = node_id node;
  e_parent : parent_node node' = parent_node node;
  e_aliases : map alias (selections node') = output_aliases node;
  e_wrapped : Forall wrapped (selections node');
  e_recursions : length (recursions node') = length (tree_recursions node);
  e_from : exists base f',
             table node' = Some (CTE base false)
             /\ from_clause node' = Some f'
             /\ first_relation f' = CTE base false
             /\ map Some (joined_relations f') = map from_clause (recursions node')
             /\ exists columns from n,
                  base = select columns true (Some from)
                           (Some (and_ (map (get_predicate_condition md n)
                                          (tree_predicates md node))));
  e_returned : match parent_node node with
               | None =>
                   returned
                   = Statement (select (map (get_column_for_block md) (selections node'))
                                  true (from_clause node') None)
               | Some _ => exists out, returned = OutColumn out
               end }.

(** ** Errors *)

(** Every error of [r] is one of [P]. *)
Definition raises_in {A} (P : Exception -> Prop) (r : result A) : Prop :=
  forall e, r = Raise e -> P e.

(** The errors of reading a column: an attribute that is not there, or a
    column that a relation does not have. *)
Definition lookup_error (e : Exception) : Prop :=
  e = AttributeError \/ exists name, e = KeyError (MissingColumn name).

(** What calling the combinator of the backend on a CTE can raise. *)
Definition combinator_error (md : CompilerMetadata) (e : Exception) : Prop :=
  exists cte query, cte_attribute_call md (recursion_combinator md) cte query = Raise e.

(** The errors of the emitter on a tree: an attribute that is not there, an
    edge of no known kind, a column that a relation does not have, a
    combinator that the CTE does not have, and what calling the combinator
    raises. *)
Definition emitter_error (md : CompilerMetadata) (e : Exception) : Prop :=
  e = AttributeError
  \/ e = AssertionError UnsupportedEdgeShape
  \/ (exists name, e = KeyError (MissingColumn name))
  \/ e = AssertionError (UnsupportedCombinator (recursion_combinator md))
  \/ combinator_error md e.
(** * The step assembler: proofs *)

Lemma raises_not_returns {A} (r : result A) : raises r <-> ~ returns r.
Proof.
  split.
  - intros [e ->] [a Ha]. discriminate.
  - intros Hn. destruct r as [a|e]; [exfalso; apply Hn; eexists; eauto | eexists; eauto].
Qed.

Lemma bind_Ok {A B} (r : result A) (k : A -> result B) b :
  r ≫= k = Ok b -> exists a, r = Ok a /\ k a = Ok b.
Proof. destruct r as [a|e]; simpl; [eauto | discriminate]. Qed.

Lemma elements_one (X : gset string) x : elements X = [x] -> X = {[ x ]}.
Proof.
  intros H. apply set_eq. intros y.
  rewrite <- elem_of_elements, H, list_elem_of_singleton, elem_of_singleton. done.
Qed.

Lemma get_only_element_Ok X x :
  get_only_element_from_collection X = Ok x <-> X = {[ x ]}.
Proof.
  unfold get_only_element_from_collection. split.
  - destruct (elements X) as [|y [|z l]] eqn:E; try discriminate.
    intros Hx. injection Hx as Hx. subst y. by apply elements_one.
  - intros ->. by rewrite elements_singleton.
Qed.

Lemma get_only_element_size X :
  returns (get_only_element_from_collection X) <-> size X = 1%nat.
Proof.
  split.
  - intros [x Hx]. apply get_only_element_Ok in Hx. subst. apply size_singleton.
  - intros H. apply size_1_elem_of in H as [x Hx]. exists x.
    apply get_only_element_Ok. by apply leibniz_equiv.
Qed.

Section assembler_facts.
Context {QueryMetadataTable : Type} (qmt : QueryMetadataTable).

Lemma make_query_root_Ok linked start_class rest s :
  _make_query_root_cypher_step qmt linked (QueryRoot start_class :: rest) = Ok s ->
  wf_step s /\ blocks_of_step s = QueryRoot start_class :: rest /\
  linked_location s = linked /\ step_types s = start_class.
Proof.
  unfold _make_query_root_cypher_step.
  destruct rest as [|[] [|[] [|? ?]]]; try discriminate; intros H;
    apply bind_Ok in H as (t & Ht & H); injection H as <-;
    apply get_only_element_Ok in Ht; subst start_class;
    (split; [constructor; simpl; eauto; intros ? [= <-]; done | done]).
Qed.

Lemma make_cypher_step_Ok linked b rest s :
  _make_cypher_step qmt linked (Some (b :: rest)) = Ok s ->
  opens_step b = true ->
  wf_step s /\ blocks_of_step s = b :: rest /\
  linked_location s = linked /\ step_block s = b.
Proof.
  intros H Hb. unfold _make_cypher_step in H.
  destruct b; try discriminate Hb.
  - change (isinstance (QueryRoot start_class) [TQueryRoot]) with true in H. cbv iota in H.
    apply make_query_root_Ok in H as H'. destruct H' as (Hwf & Hbl & Hl & Ht).
    split; [exact Hwf | split; [exact Hbl | split; [exact Hl |]]].
    pose proof Hbl as Hbl'. unfold blocks_of_step in Hbl'. injection Hbl' as Hx _. exact Hx.
  - change (isinstance (Traverse direction edge_name) [TQueryRoot]) with false in H. cbv iota in H.
    destruct rest as [|[] [|[] [|[] [|? ?]]]]; try discriminate;
      apply bind_Ok in H as (t & Ht & H); injection H as <-;
      apply get_only_element_Ok in Ht; subst target_class;
      (split; [constructor; simpl; eauto; discriminate | done]).
  - change (isinstance (Recurse direction edge_name depth) [TQueryRoot]) with false in H. cbv iota in H.
    destruct rest as [|[] [|[] [|[] [|? ?]]]]; try discriminate;
      apply bind_Ok in H as (t & Ht & H); injection H as <-;
      apply get_only_element_Ok in Ht; subst target_class;
      (split; [constructor; simpl; eauto; discriminate | done]).
Qed.


Lemma Inv_initial : Inv initial_locals [].
Proof. constructor; simpl; auto. apply not_elem_of_nil. Qed.

Lemma filter_snoc {A} (f : A -> bool) l x :
  List.filter f (l ++ [x]) = List.filter f l ++ (if f x then [x] else []).
Proof. rewrite List.filter_app. simpl. by destruct (f x). Qed.

Lemma flat_map_snoc {A B} (f : A -> list B) l x :
  flat_map f (l ++ [x]) = flat_map f l ++ f x.
Proof. rewrite flat_map_app. simpl. by rewrite app_nil_r. Qed.

Lemma not_elem_of_snoc {A} (l : list A) x y : x ∉ l -> x <> y -> x ∉ l ++ [y].
Proof.
  intros Hl Hxy Hin. apply elem_of_app in Hin as [Hin|Hin]; [done|].
  apply list_elem_of_singleton in Hin. done.
Qed.

Lemma loop_body_break st idx block st' :
  loop_body qmt st idx block = Ok (st', true) ->
  block = GlobalOperationsStart /\
  exists s, _make_cypher_step qmt (l_linked_location st) (l_current_step_blocks st) = Ok s /\
    st' = {| l_steps := l_steps st ++ [s]; l_current_step_blocks := None;
             l_linked_location := l_linked_location st;
             l_next_linked_location := l_next_linked_location st;
             l_global_operations_index := Some idx |}.
Proof.
  unfold loop_body. destruct block; cbn; intros H.
  all: try discriminate H.
  all: try (destruct (l_current_step_blocks st); discriminate H).
  all: try (apply bind_Ok in H as (s & Hs & H); try discriminate H).
  all: try (destruct (l_current_step_blocks st); cbn in H; discriminate H).
  injection H as <-. eauto.
Qed.


Lemma make_cypher_step_Inv st pre s :
  Inv st pre ->
  _make_cypher_step qmt (l_linked_location st) (l_current_step_blocks st) = Ok s ->
  wf_step s /\ linked_location s = l_linked_location st /\
  exists rest, l_current_step_blocks st = Some (step_block s :: rest) /\
    blocks_of_step s = step_block s :: rest.
Proof.
  intros HI H. pose proof (inv_current _ _ HI) as Hc.
  destruct (l_current_step_blocks st) as [buf|]; [|discriminate H].
  destruct Hc as (b & rest & -> & Hb).
  apply make_cypher_step_Ok in H as (Hwf & Hbl & Hl & Hs); [|done].
  subst b. eauto.
Qed.

Lemma loop_body_continue st idx block st' pre :
  Inv st pre ->
  loop_body qmt st idx block = Ok (st', false) ->
  block <> GlobalOperationsStart /\ Inv st' (pre ++ [block]).
Proof.
  intros HI H. pose proof HI as [Hi Hk Hwf Hc Hg].
  unfold loop_body in H. destruct block; cbn in H.
  all: try discriminate H.
  - (* QueryRoot *)
    destruct (l_current_step_blocks st) eqn:E; [discriminate H|].
    injection H as <-. split; [done|]. simpl in Hk.
    constructor; simpl; auto.
    + rewrite filter_snoc, Hk, Hc. done.
    + eexists _, _. split; [reflexivity|done].
    + by apply not_elem_of_snoc.
  - (* Traverse *)
    apply bind_Ok in H as (s & Hs & H). injection H as <-. split; [done|].
    destruct (make_cypher_step_Inv _ _ _ HI Hs) as (Hws & _ & rest & Hcur & Hbl).
    rewrite Hcur in Hk. simpl in Hk.
    constructor; simpl; auto.
    + rewrite filter_snoc, Hk, flat_map_snoc, Hbl. done.
    + apply Forall_app. split; [done|]. by constructor.
    + eexists _, _. split; [reflexivity|done].
    + by apply not_elem_of_snoc.
  - (* Recurse *)
    apply bind_Ok in H as (s & Hs & H). injection H as <-. split; [done|].
    destruct (make_cypher_step_Inv _ _ _ HI Hs) as (Hws & _ & rest & Hcur & Hbl).
    rewrite Hcur in Hk. simpl in Hk.
    constructor; simpl; auto.
    + rewrite filter_snoc, Hk, flat_map_snoc, Hbl. done.
    + apply Forall_app. split; [done|]. by constructor.
    + eexists _, _. split; [reflexivity|done].
    + by apply not_elem_of_snoc.
  - (* Backtrack *)
    injection H as <-. split; [done|].
    constructor; simpl; auto.
    + rewrite filter_snoc, Hk. simpl. by rewrite app_nil_r.
    + by apply not_elem_of_snoc.
  - (* MarkLocation *)
    destruct (l_current_step_blocks st) as [buf|] eqn:E; [|discriminate H].
    cbn in H. injection H as <-. split; [done|]. simpl in Hk.
    constructor; simpl; auto.
    + rewrite filter_snoc, Hk. simpl. by rewrite app_assoc.
    + destruct Hc as (b & rest & -> & Hb). eexists _, _. split; [reflexivity|done].
    + by apply not_elem_of_snoc.
  - (* CoerceType *)
    destruct (l_current_step_blocks st) as [buf|] eqn:E; [|discriminate H].
    cbn in H. injection H as <-. split; [done|]. simpl in Hk.
    constructor; simpl; auto.
    + rewrite filter_snoc, Hk. simpl. by rewrite app_assoc.
    + destruct Hc as (b & rest & -> & Hb). eexists _, _. split; [reflexivity|done].
    + by apply not_elem_of_snoc.
  - (* Filter *)
    destruct (l_current_step_blocks st) as [buf|] eqn:E; [|discriminate H].
    cbn in H. injection H as <-. split; [done|]. simpl in Hk.
    constructor; simpl; auto.
    + rewrite filter_snoc, Hk. simpl. by rewrite app_assoc.
    + destruct Hc as (b & rest & -> & Hb). eexists _, _. split; [reflexivity|done].
    + by apply not_elem_of_snoc.
  - (* Unfold *)
    injection H as <-. split; [done|].
    constructor; simpl; auto.
    + rewrite filter_snoc, Hk. simpl. by rewrite app_nil_r.
    + by apply not_elem_of_snoc.
  - injection H as <-. split; [done|].
    constructor; simpl; auto.
    + rewrite filter_snoc, Hk. simpl. by rewrite app_nil_r.
    + by apply not_elem_of_snoc.
  - injection H as <-. split; [done|].
    constructor; simpl; auto.
    + rewrite filter_snoc, Hk. simpl. by rewrite app_nil_r.
    + by apply not_elem_of_snoc.
  - (* GlobalOperationsStart *)
    apply bind_Ok in H as (s & Hs & H). discriminate H.
Qed.


Lemma for_loop_spec blocks : forall st idx pre st',
  Inv st pre ->
  for_loop qmt st idx blocks = Ok st' ->
  (l_global_operations_index st' = None /\ Inv st' (pre ++ blocks)) \/
  (exists mid post,
     blocks = mid ++ GlobalOperationsStart :: post /\
     (GlobalOperationsStart ∉ pre ++ mid) /\
     l_global_operations_index st' = Some (idx + length mid)%nat /\
     List.filter kept (pre ++ mid) = flat_map blocks_of_step (l_steps st') /\
     Forall wf_step (l_steps st')).
Proof.
  induction blocks as [|block rest IH]; intros st idx pre st' HI H; simpl in H.
  - injection H as <-. left. rewrite app_nil_r. split; [apply HI | done].
  - apply bind_Ok in H as ([st1 brk] & Hb & H). destruct brk.
    + injection H as <-. apply loop_body_break in Hb as (-> & s & Hs & ->).
      right. exists [], rest. simpl. rewrite app_nil_r, Nat.add_0_r.
      destruct (make_cypher_step_Inv _ _ _ HI Hs) as (Hws & _ & buf & Hcur & Hbl).
      pose proof HI as [Hi Hk Hwf Hc Hg]. rewrite Hcur in Hk. simpl in Hk.
      repeat split; try done.
      * rewrite flat_map_snoc, Hbl. done.
      * apply Forall_app. split; [done|]. by constructor.
    + apply (loop_body_continue _ _ _ _ pre HI) in Hb as (Hne & HI').
      destruct (IH _ _ _ _ HI' H) as [(Hn & HI'')|(mid & post & -> & Hg & Hidx & Hk & Hwf)].
      * left. split; [done|]. by rewrite <- app_assoc in HI''.
      * right. exists (block :: mid), post. simpl.
        rewrite <- app_assoc in Hg, Hk. simpl in Hg, Hk.
        repeat split; try done. rewrite Hidx. f_equal. lia.
Qed.

Lemma drop_after_index (mid post : list Block) x :
  drop (length mid + 1) (mid ++ x :: post) = post.
Proof.
  replace (mid ++ x :: post) with ((mid ++ [x]) ++ post) by (by rewrite <- app_assoc).
  replace (length mid + 1)%nat with (length (mid ++ [x])) by (rewrite length_app; simpl; lia).
  apply drop_app_length.
Qed.

Lemma convert_Ok extract ir q :
  convert_to_cypher_query extract ir qmt = Ok q ->
  exists rem mid,
    extract ir = Ok (folds q, rem) /\
    rem = mid ++ GlobalOperationsStart :: option_list (global_where_block q) ++ [output_block q] /\
    (GlobalOperationsStart ∉ mid) /\
    List.filter kept mid = flat_map blocks_of_step (steps q) /\
    Forall wf_step (steps q) /\
    (global_where_block q = None \/ exists p, global_where_block q = Some (Filter p)) /\
    exists fields, output_block q = ConstructResult fields.
Proof.
  unfold convert_to_cypher_query. intros H.
  apply bind_Ok in H as ([fs rem] & He & H). cbn beta iota zeta in H.
  apply bind_Ok in H as (st & Hl & H).
  destruct (for_loop_spec _ _ _ [] _ Inv_initial Hl)
    as [(Hn & _)|(mid & post & -> & Hg & Hidx & Hk & Hwf)];
    unfold global_operations in H.
  - rewrite Hn in H. discriminate H.
  - rewrite Hidx in H. simpl in Hidx, Hg, Hk, H. rewrite drop_after_index in H.
    exists (mid ++ GlobalOperationsStart :: post), mid.
    destruct post as [|[] [|[] [|? ?]]]; try discriminate H; injection H as <-; simpl;
      repeat split; eauto.
Qed.

End assembler_facts.

(** ** Consequences of the characterisation *)

Lemma opens_kept b : opens_step b = true -> kept b = true.
Proof. by destruct b. Qed.

Lemma filter_opens_kept l :
  List.filter opens_step (List.filter kept l) = List.filter opens_step l.
Proof.
  induction l as [|b l IH]; [done|]. simpl.
  destruct (kept b) eqn:Ek; simpl.
  - by rewrite IH.
  - destruct (opens_step b) eqn:Eo; [|done].
    apply opens_kept in Eo. congruence.
Qed.

Lemma opens_blocks_of_step s :
  wf_step s -> List.filter opens_step (blocks_of_step s) = [step_block s].
Proof.
  intros [Ho _ _ Hw [l Ha]]. unfold blocks_of_step. rewrite Ha.
  destruct Hw as [->|[p ->]]; destruct (step_block s); try discriminate Ho; done.
Qed.

Lemma opens_flat_map ss :
  Forall wf_step ss ->
  List.filter opens_step (flat_map blocks_of_step ss) = map step_block ss.
Proof.
  induction 1 as [|s ss Hs _ IH]; [done|]. cbn [flat_map map].
  by rewrite List.filter_app, opens_blocks_of_step, IH.
Qed.

Lemma declared_kept l :
  omap declared_types (List.filter kept l) = omap declared_types l.
Proof.
  induction l as [|b l IH]; [done|]. cbn [List.filter].
  destruct (kept b) eqn:Ek.
  - change (b :: ?l) with ([b] ++ l). by rewrite !omap_app, IH.
  - rewrite IH. change (b :: l) with ([b] ++ l). rewrite omap_app.
    by destruct b.
Qed.

Lemma declared_blocks_of_step s :
  wf_step s -> omap declared_types (blocks_of_step s) = [step_types s].
Proof.
  intros [Ho Hr _ Hw [l Ha]]. unfold blocks_of_step. rewrite Ha.
  destruct (step_block s) eqn:Es; try discriminate Ho.
  - rewrite <- (Hr _ eq_refl). by destruct Hw as [->|[p ->]].
  - by destruct Hw as [->|[p ->]].
  - by destruct Hw as [->|[p ->]].
Qed.

Lemma declared_flat_map ss :
  Forall wf_step ss ->
  omap declared_types (flat_map blocks_of_step ss) = map step_types ss.
Proof.
  induction 1 as [|s ss Hs _ IH]; [done|]. cbn [flat_map map].
  by rewrite omap_app, declared_blocks_of_step, IH.
Qed.

(** The blocks after [GlobalOperationsStart] neither open a step nor declare
    a type. *)
Lemma trailing_inert q :
  (global_where_block q = None \/ exists p, global_where_block q = Some (Filter p)) ->
  (exists fields, output_block q = ConstructResult fields) ->
  let tail := GlobalOperationsStart :: option_list (global_where_block q) ++ [output_block q] in
  List.filter opens_step tail = [] /\ omap declared_types tail = [] /\
  trailing_ok (option_list (global_where_block q) ++ [output_block q]).
Proof.
  intros [->|[p ->]] [fields ->]; simpl; unfold trailing_ok; simpl; auto.
Qed.

Lemma step_blocks_in_order {T} (qmt : T) extract ir fs rem q :
  extract ir = Ok (fs, rem) ->
  convert_to_cypher_query extract ir qmt = Ok q ->
  map step_block (steps q) = List.filter opens_step rem.
Proof.
  intros He H. apply convert_Ok in H as (rem' & mid & He' & -> & _ & Hk & Hwf & Hg & Ho).
  rewrite He in He'. injection He' as _ ->.
  destruct (trailing_inert q Hg Ho) as (Ht & _).
  rewrite List.filter_app, Ht, app_nil_r, <- filter_opens_kept, Hk.
  symmetry. by apply opens_flat_map.
Qed.

Lemma step_types_in_order {T} (qmt : T) extract ir fs rem q :
  extract ir = Ok (fs, rem) ->
  convert_to_cypher_query extract ir qmt = Ok q ->
  map step_types (steps q) = omap declared_types rem /\
  Forall (fun s => exists t, step_types s = {[ t ]}) (steps q).
Proof.
  intros He H. apply convert_Ok in H as (rem' & mid & He' & -> & _ & Hk & Hwf & Hg & Ho).
  rewrite He in He'. injection He' as _ ->.
  destruct (trailing_inert q Hg Ho) as (_ & Ht & _). split.
  - rewrite omap_app, Ht, app_nil_r, <- declared_kept, Hk.
    symmetry. by apply declared_flat_map.
  - eapply Forall_impl; [exact Hwf|]. intros s Hs. apply Hs.
Qed.

Lemma split_unique {A} (x : A) l1 : forall l2 l3 l4,
  l1 ++ x :: l2 = l3 ++ x :: l4 -> x ∉ l3 -> x ∉ l4 -> l1 = l3 /\ l2 = l4.
Proof.
  induction l1 as [|a l1 IH]; intros l2 [|b l3] l4 H H3 H4; simpl in H.
  - by injection H.
  - injection H as -> _. exfalso. apply H3. left.
  - injection H as -> <-. exfalso. apply H4. apply elem_of_app. right. left.
  - injection H as -> H. apply not_elem_of_cons in H3 as [_ H3].
    destruct (IH _ _ _ H H3 H4) as [-> ->]. done.
Qed.

(** ** Where the singleton-extraction error can come from *)

Lemma make_cypher_step_NotOneElement {T} (qmt : T) linked buf :
  _make_cypher_step qmt linked buf = Raise (AssertionError NotOneElement) ->
  Exists bad_types (default [] buf).
Proof.
  assert (Hbad : forall X, get_only_element_from_collection X
                           = Raise (AssertionError NotOneElement) -> size X <> 1%nat).
  { intros X HX Hs. apply get_only_element_size in Hs as [x Hx]. congruence. }
  assert (Hres : forall X (k : string -> CypherStep),
             (x ← get_only_element_from_collection X; Ok (k x))
             = Raise (AssertionError NotOneElement) -> size X <> 1%nat).
  { intros X k H. apply Hbad.
    destruct (get_only_element_from_collection X); [discriminate H|].
    cbn in H. by injection H as ->. }
  unfold _make_cypher_step, _make_query_root_cypher_step.
  destruct buf as [[|b rest]|]; try discriminate. simpl.
  destruct b; cbn; intros H.
  1: { destruct rest as [|[] [|[] [|? ?]]]; try discriminate H;
       apply Hres in H; left; eexists; eauto. }
  all: destruct rest as [|[] [|[] [|[] [|? ?]]]]; try discriminate H;
    apply Hres in H; right; left; eexists; eauto.
Qed.

Lemma loop_body_NotOneElement {T} (qmt : T) st idx block :
  loop_body qmt st idx block = Raise (AssertionError NotOneElement) ->
  Exists bad_types (default [] (l_current_step_blocks st)).
Proof.
  unfold loop_body. destruct block; cbn; intros H; try discriminate H.
  all: try (destruct (l_current_step_blocks st); discriminate H).
  all: destruct (_make_cypher_step qmt (l_linked_location st) (l_current_step_blocks st))
         eqn:E; try discriminate H; cbn in H.
  all: injection H as H; rewrite H in E; by apply make_cypher_step_NotOneElement in E.
Qed.

Lemma loop_body_buffer {T} (qmt : T) st idx block st' brk :
  loop_body qmt st idx block = Ok (st', brk) ->
  default [] (l_current_step_blocks st') ⊆ default [] (l_current_step_blocks st) ++ [block].
Proof.
  unfold loop_body. destruct block; cbn; intros H; try discriminate H.
  all: try (apply bind_Ok in H as (s & Hs & H)).
  all: try (unfold append in Hs).
  all: destruct (l_current_step_blocks st) as [buf|] eqn:E; try discriminate.
  all: try (injection Hs as <-).
  all: injection H as H1 H2; subst; cbn; rewrite ?E; cbn.
  all: intros x Hx; rewrite ?E in Hx; cbn in Hx.
  all: first [exact Hx | by apply elem_of_app; left | by apply elem_of_app; right
             | by apply elem_of_nil in Hx].
Qed.

Lemma for_loop_NotOneElement {T} (qmt : T) blocks : forall st idx,
  for_loop qmt st idx blocks = Raise (AssertionError NotOneElement) ->
  Exists bad_types (default [] (l_current_step_blocks st) ++ blocks).
Proof.
  induction blocks as [|block rest IH]; intros st idx H; simpl in H; [discriminate H|].
  destruct (loop_body qmt st idx block) as [[st' brk]|e] eqn:E; cbn in H.
  - destruct brk; [discriminate H|].
    apply IH in H. apply loop_body_buffer in E.
    apply Exists_exists in H as (b & Hb & Hbad). apply Exists_exists. exists b.
    split; [|done]. apply elem_of_app in Hb as [Hb|Hb].
    + apply E in Hb. apply elem_of_app in Hb as [Hb|Hb]; [set_solver|].
      apply list_elem_of_singleton in Hb as ->. set_solver.
    + set_solver.
  - injection H as ->. apply loop_body_NotOneElement in E.
    apply Exists_app. by left.
Qed.

(** ** When a step buffer yields a step *)

Lemma for_loop_app {T} (qmt : T) pre : forall st idx st' rest,
  for_loop qmt st idx pre = Ok st' ->
  l_global_operations_index st' = None ->
  for_loop qmt st idx (pre ++ rest) = for_loop qmt st' (idx + length pre)%nat rest.
Proof.
  induction pre as [|b pre IH]; intros st idx st' rest H Hn; simpl in *.
  - injection H as <-. by rewrite Nat.add_0_r.
  - destruct (loop_body qmt st idx b) as [[st1 brk]|e] eqn:E; [|discriminate H].
    cbn in *. destruct brk.
    + injection H as <-. apply loop_body_break in E as (_ & s & _ & ->).
      discriminate Hn.
    + rewrite (IH _ _ _ rest H Hn). f_equal. lia.
Qed.

Lemma loop_body_finishes {T} (qmt : T) st idx block e :
  isinstance block [TGlobalOperationsStart; TTraverse; TRecurse] = true ->
  _make_cypher_step qmt (l_linked_location st) (l_current_step_blocks st) = Raise e ->
  loop_body qmt st idx block = Raise e.
Proof.
  intros Hb He. unfold loop_body.
  destruct block; try discriminate Hb; cbn; by rewrite He.
Qed.

Lemma make_cypher_step_returns {T} (qmt : T) linked b rest :
  opens_step b = true ->
  returns (_make_cypher_step qmt linked (Some (b :: rest))) <->
  map type_of (b :: rest) ∈ allowed_shapes /\
  exists X, buffer_types (b :: rest) = Some X /\ size X = 1%nat.
Proof.
  intros Hb. unfold allowed_shapes. split.
  - intros [s Hs]. pose proof Hs as Hs'.
    apply make_cypher_step_Ok in Hs' as (Hwf & Hbl & _ & Hsb); [|done].
    destruct Hwf as [_ Hr [t Ht] Hw [l Ha]].
    unfold blocks_of_step in Hbl. rewrite Hsb, Ha in Hbl.
    injection Hbl as Hbl. rewrite <- Hbl.
    destruct b; try discriminate Hb; destruct Hw as [->|[p ->]]; cbn.
    all: split; [set_solver|].
    all: try (rewrite (Hr _ Hsb)).
    all: eexists; split; [reflexivity|]; rewrite Ht; apply size_singleton.
  - intros (Hshape & X & HX & Hsize).
    apply get_only_element_size in Hsize as [t Ht].
    repeat (apply elem_of_cons in Hshape as [Hshape|Hshape];
            [destruct b; try discriminate Hshape;
             destruct rest as [|[] [|[] [|[] [|? ?]]]]; try discriminate Hshape;
             cbn in HX; injection HX as ->; cbn; rewrite Ht; by eexists |]).
    by apply elem_of_nil in Hshape.
Qed.

(** * The step assembler: more about the loop *)

Section loop_facts.
Context {QueryMetadataTable : Type} (qmt : QueryMetadataTable).

(** The iterations of the loop that do not raise, one case for each branch. *)
Lemma loop_body_cases st idx block st' brk :
  loop_body qmt st idx block = Ok (st', brk) ->
  (block = GlobalOperationsStart /\ brk = true
   /\ exists s,
        _make_cypher_step qmt (l_linked_location st) (l_current_step_blocks st) = Ok s
        /\ st' = {| l_steps := l_steps st ++ [s]; l_current_step_blocks := None;
                    l_linked_location := l_linked_location st;
                    l_next_linked_location := l_next_linked_location st;
                    l_global_operations_index := Some idx |})
  \/ (isinstance block [TQueryRoot] = true /\ brk = false
      /\ l_current_step_blocks st = None
      /\ st' = {| l_steps := l_steps st; l_current_step_blocks := Some [block];
                  l_linked_location := l_linked_location st;
                  l_next_linked_location := l_next_linked_location st;
                  l_global_operations_index := l_global_operations_index st |})
  \/ (isinstance block [TTraverse; TRecurse] = true /\ brk = false
      /\ exists s,
           _make_cypher_step qmt (l_linked_location st) (l_current_step_blocks st) = Ok s
           /\ st' = {| l_steps := l_steps st ++ [s];
                       l_current_step_blocks := Some [block];
                       l_linked_location := l_next_linked_location st;
                       l_next_linked_location := None;
                       l_global_operations_index := l_global_operations_index st |})
  \/ (brk = false
      /\ exists location buf,
           block = MarkLocation location /\ l_current_step_blocks st = Some buf
           /\ st' = {| l_steps := l_steps st;
                       l_current_step_blocks := Some (buf ++ [block]);
                       l_linked_location := l_linked_location st;
                       l_next_linked_location := Some location;
                       l_global_operations_index := l_global_operations_index st |})
  \/ (brk = false
      /\ exists location,
           block = Backtrack location
           /\ st' = {| l_steps := l_steps st;
                       l_current_step_blocks := l_current_step_blocks st;
                       l_linked_location := l_linked_location st;
                       l_next_linked_location := Some location;
                       l_global_operations_index := l_global_operations_index st |})
  \/ (isinstance block discarded_block_types = true /\ brk = false /\ st' = st)
  \/ (isinstance block [TFilter; TCoerceType] = true /\ brk = false
      /\ exists buf,
           l_current_step_blocks st = Some buf
           /\ st' = {| l_steps := l_steps st;
                       l_current_step_blocks := Some (buf ++ [block]);
                       l_linked_location := l_linked_location st;
                       l_next_linked_location := l_next_linked_location st;
                       l_global_operations_index := l_global_operations_index st |}).
Proof.
  unfold loop_body. destruct block; cbn; intros H; try discriminate H.
  - (* QueryRoot *)
    destruct (l_current_step_blocks st) eqn:E; [discriminate H|].
    injection H as <- <-. right. left. auto.
  - (* Traverse *)
    apply bind_Ok in H as (s & Hs & H). injection H as <- <-.
    right. right. left. eauto.
  - (* Recurse *)
    apply bind_Ok in H as (s & Hs & H). injection H as <- <-.
    right. right. left. eauto.
  - (* Backtrack *)
    injection H as <- <-. do 4 right. left. eauto.
  - (* MarkLocation *)
    destruct (l_current_step_blocks st) as [buf|] eqn:E; [|discriminate H].
    cbn in H. injection H as <- <-. do 3 right. left. eauto 10.
  - (* CoerceType *)
    destruct (l_current_step_blocks st) as [buf|] eqn:E; [|discriminate H].
    cbn in H. injection H as <- <-. do 6 right. eauto 10.
  - (* Filter *)
    destruct (l_current_step_blocks st) as [buf|] eqn:E; [|discriminate H].
    cbn in H. injection H as <- <-. do 6 right. eauto 10.
  - injection H as <- <-. do 5 right. left. auto.
  - injection H as <- <-. do 5 right. left. auto.
  - injection H as <- <-. do 5 right. left. auto.
  - (* GlobalOperationsStart *)
    apply bind_Ok in H as (s & Hs & H). injection H as <- <-. left. eauto.
Qed.

Lemma root_opens b : isinstance b [TQueryRoot] = true -> opens_step b = true.
Proof. by destruct b. Qed.

Lemma later_opens b : isinstance b [TTraverse; TRecurse] = true -> opens_step b = true.
Proof. by destruct b. Qed.

Lemma as_block_in_step s :
  wf_step s -> exists location, MarkLocation location ∈ blocks_of_step s.
Proof.
  intros [_ _ _ _ [l Hl]]. exists l. unfold blocks_of_step. rewrite Hl.
  right. rewrite !elem_of_app. right. right. by left.
Qed.

Lemma steps_shape_snoc ss s :
  steps_shape ss ->
  match ss with
  | [] => isinstance (step_block s) [TQueryRoot] = true /\ linked_location s = None
  | _ :: _ => later_step s
  end ->
  steps_shape (ss ++ [s]).
Proof.
  destruct ss as [|s0 rest]; simpl.
  - intros _ [Hr Hl]. auto.
  - intros (Hr & Hl & Hrest) Hs. repeat split; try assumption.
    apply Forall_app. split; [exact Hrest | by constructor].
Qed.

(** Making a step out of the current buffer, under the invariant. *)
Lemma make_step_LinkInv st s :
  LinkInv st ->
  _make_cypher_step qmt (l_linked_location st) (l_current_step_blocks st) = Ok s ->
  steps_shape (l_steps st ++ [s]) /\ l_next_linked_location st <> None.
Proof.
  intros [_ Hsteps Hcur Hnext] H.
  destruct (l_current_step_blocks st) as [buf|] eqn:E; [|discriminate H].
  destruct Hcur as (b & rest & -> & Hb).
  assert (Ho : opens_step b = true).
  { destruct (l_steps st); destruct Hb as [Hb _]; [by apply root_opens | by apply later_opens]. }
  apply make_cypher_step_Ok in H as (Hwf & Hbl & Hl & Hs); [|exact Ho].
  split.
  - apply steps_shape_snoc; [exact Hsteps|]. unfold later_step. rewrite Hs, Hl.
    destruct (l_steps st); [exact Hb | exact Hb].
  - destruct (as_block_in_step s Hwf) as [l Hin]. rewrite Hbl in Hin.
    by apply (Hnext (b :: rest) l).
Qed.

Lemma loop_body_LinkInv st idx block st' :
  LinkInv st ->
  loop_body qmt st idx block = Ok (st', false) ->
  LinkInv st'.
Proof.
  intros HI H. pose proof HI as [Hidx Hsteps Hcur Hnext].
  apply loop_body_cases in H
    as [(_ & Hb & _)|[(Hb & _ & Hnone & ->)|[(Hb & _ & s & Hs & ->)
       |[(_ & l & buf & -> & Hbuf & ->)|[(_ & l & -> & ->)
       |[(_ & _ & ->)|(Hb & _ & buf & Hbuf & ->)]]]]]].
  - discriminate Hb.
  - rewrite Hnone in Hcur. destruct Hcur as [Hnil Hlinked].
    constructor; simpl; auto.
    + exists block, []. split; [reflexivity|]. by rewrite Hnil.
    + intros buf l [= <-] Hin. apply list_elem_of_singleton in Hin. subst block.
      discriminate Hb.
  - destruct (make_step_LinkInv st s HI Hs) as [Hshape Hn].
    constructor; simpl; auto.
    + exists block, []. split; [reflexivity|].
      destruct (l_steps st); simpl; by split.
    + intros buf l [= <-] Hin. apply list_elem_of_singleton in Hin. subst block.
      discriminate Hb.
  - rewrite Hbuf in Hcur. constructor; simpl; auto.
    destruct Hcur as (b & rest & -> & Hb). by exists b, (rest ++ [MarkLocation l]).
  - constructor; simpl; auto.
  - exact HI.
  - rewrite Hbuf in Hcur. constructor; simpl; auto.
    + destruct Hcur as (b & rest & -> & Hb'). by exists b, (rest ++ [block]).
    + intros buf' l [= <-] Hin. apply elem_of_app in Hin as [Hin|Hin].
      * by apply (Hnext buf l).
      * apply list_elem_of_singleton in Hin. subst block. discriminate Hb.
Qed.

Lemma for_loop_LinkInv blocks : forall st idx st',
  LinkInv st ->
  for_loop qmt st idx blocks = Ok st' ->
  LinkInv st'
  \/ (l_global_operations_index st' <> None
      /\ steps_shape (l_steps st') /\ l_steps st' <> []).
Proof.
  induction blocks as [|block rest IH]; intros st idx st' HI H; simpl in H.
  - injection H as <-. by left.
  - apply bind_Ok in H as ([st1 brk] & Hb & H). destruct brk.
    + injection H as <-. right.
      apply loop_body_cases in Hb
        as [(_ & _ & s & Hs & ->)|[(_ & ? & _)|[(_ & ? & _)
           |[(? & _)|[(? & _)|[(_ & ? & _)|(_ & ? & _)]]]]]]; try discriminate.
      destruct (make_step_LinkInv st s HI Hs) as [Hshape _]. simpl.
      split; [discriminate|]. split; [exact Hshape|].
      intros Hnil. by apply app_eq_nil in Hnil as [_ ?].
    + apply (IH _ _ _ (loop_body_LinkInv _ _ _ _ HI Hb) H).
Qed.

Lemma LinkInv_initial : LinkInv initial_locals.
Proof. constructor; simpl; auto; intros buf l H; discriminate H. Qed.

End loop_facts.

Lemma global_operations_Ok rem fs st q :
  global_operations rem fs st = Ok q ->
  steps q = l_steps st /\ folds q = fs /\ l_global_operations_index st <> None.
Proof.
  unfold global_operations.
  destruct (l_global_operations_index st) as [i|]; [|discriminate].
  destruct (drop (i + 1) rem) as [|[] [|[] [|? ?]]]; try discriminate;
    intros H; injection H as <-; simpl; auto.
Qed.

Lemma convert_steps_shape {T} (qmt : T) extract ir q :
  convert_to_cypher_query extract ir qmt = Ok q ->
  steps_shape (steps q) /\ steps q <> [].
Proof.
  unfold convert_to_cypher_query. intros H.
  apply bind_Ok in H as ([fs rem] & _ & H). cbn beta iota zeta in H.
  apply bind_Ok in H as (st & Hl & H).
  apply global_operations_Ok in H as (-> & _ & Hidx).
  destruct (for_loop_LinkInv qmt _ _ _ _ (LinkInv_initial) Hl) as [HI|(_ & Hs & Hn)].
  - destruct Hidx. apply HI.
  - by split.
Qed.

(** ** The loop and the index of the blocks *)

Section index_facts.
Context {QueryMetadataTable : Type} (qmt : QueryMetadataTable).

Lemma with_index_same st : with_index (l_global_operations_index st) st = st.
Proof. by destruct st. Qed.

(** The index is only stored, and only by the iteration that ends the loop. *)
Lemma loop_body_index st idx idx' block :
  loop_body qmt st idx' block
  = match loop_body qmt st idx block with
    | Ok (st', true) => Ok (with_index (Some idx') st', true)
    | r => r
    end.
Proof.
  unfold loop_body. destruct block; cbn; try reflexivity.
  all: try (destruct (l_current_step_blocks st); reflexivity).
  all: destruct (_make_cypher_step qmt (l_linked_location st) (l_current_step_blocks st));
    reflexivity.
Qed.

Lemma loop_body_keeps_index st idx block st' :
  loop_body qmt st idx block = Ok (st', false) ->
  l_global_operations_index st' = l_global_operations_index st.
Proof.
  intros H. apply loop_body_cases in H
    as [(_ & Hb & _)|[(_ & _ & _ & ->)|[(_ & _ & s & _ & ->)
       |[(_ & l & buf & _ & _ & ->)|[(_ & l & _ & ->)
       |[(_ & _ & ->)|(_ & _ & buf & _ & ->)]]]]]]; try reflexivity.
  discriminate Hb.
Qed.

Lemma for_loop_index d blocks : forall st idx,
  l_global_operations_index st = None ->
  for_loop qmt st (idx + d) blocks
  = match for_loop qmt st idx blocks with
    | Ok st' => Ok (shift_index d st')
    | Raise e => Raise e
    end.
Proof.
  induction blocks as [|block rest IH]; intros st idx Hn; simpl.
  - unfold shift_index. rewrite Hn. simpl. by rewrite <- Hn, with_index_same.
  - rewrite (loop_body_index st idx (idx + d) block).
    destruct (loop_body qmt st idx block) as [[st1 brk]|e] eqn:E; simpl; [|reflexivity].
    destruct brk; simpl.
    + apply loop_body_cases in E
        as [(_ & _ & s & _ & ->)|[(_ & ? & _)|[(_ & ? & _)
           |[(? & _)|[(? & _)|[(_ & ? & _)|(_ & ? & _)]]]]]]; try discriminate.
      reflexivity.
    + apply loop_body_keeps_index in E as Hi. rewrite Hn in Hi.
      apply (IH st1 (S idx) Hi).
Qed.

Lemma for_loop_index_ge blocks : forall st idx st' i,
  l_global_operations_index st = None ->
  for_loop qmt st idx blocks = Ok st' ->
  l_global_operations_index st' = Some i ->
  (idx <= i)%nat /\ GlobalOperationsStart ∈ blocks.
Proof.
  induction blocks as [|block rest IH]; intros st idx st' i Hn H Hi; simpl in H.
  - injection H as <-. congruence.
  - apply bind_Ok in H as ([st1 brk] & E & H). destruct brk.
    + injection H as <-. apply loop_body_cases in E
        as [(-> & _ & s & _ & ->)|[(_ & ? & _)|[(_ & ? & _)
           |[(? & _)|[(? & _)|[(_ & ? & _)|(_ & ? & _)]]]]]]; try discriminate.
      simpl in Hi. injection Hi as <-. split; [lia | by left].
    + apply loop_body_keeps_index in E as Hk. rewrite Hn in Hk.
      destruct (IH _ _ _ _ Hk H Hi) as [Hle Hin]. split; [lia | by right].
Qed.

Lemma for_loop_app_Raise pre : forall st idx rest e,
  for_loop qmt st idx pre = Raise e ->
  for_loop qmt st idx (pre ++ rest) = Raise e.
Proof.
  induction pre as [|b pre IH]; intros st idx rest e H; simpl in *; [discriminate H|].
  destruct (loop_body qmt st idx b) as [[st1 brk]|e'] eqn:E; simpl in *; [|exact H].
  destruct brk; [discriminate H | by apply IH].
Qed.

Lemma loop_body_discarded st idx block :
  isinstance block discarded_block_types = true ->
  loop_body qmt st idx block = Ok (st, false).
Proof. intros H. unfold loop_body. by destruct block. Qed.

Lemma for_loop_skips pre b post :
  isinstance b discarded_block_types = true ->
  GlobalOperationsStart ∉ pre ->
  match for_loop qmt initial_locals 0 (pre ++ post) with
  | Ok st =>
      for_loop qmt initial_locals 0 (pre ++ b :: post) = Ok (shift_index 1 st)
      /\ forall i, l_global_operations_index st = Some i -> (length pre <= i)%nat
  | Raise e => for_loop qmt initial_locals 0 (pre ++ b :: post) = Raise e
  end.
Proof.
  intros Hb Hpre.
  destruct (for_loop qmt initial_locals 0 pre) as [st1|e] eqn:E.
  2:{ rewrite !(for_loop_app_Raise pre _ _ _ e E). reflexivity. }
  assert (Hn : l_global_operations_index st1 = None).
  { destruct (l_global_operations_index st1) as [i|] eqn:Hi; [|reflexivity].
    by destruct (for_loop_index_ge pre initial_locals 0%nat st1 i eq_refl E Hi) as [_ ?]. }
  rewrite !(for_loop_app qmt pre _ _ _ _ E Hn). simpl.
  rewrite (loop_body_discarded _ _ _ Hb). simpl.
  replace (S (length pre)) with (length pre + 1)%nat by lia.
  rewrite (for_loop_index 1 post st1 (length pre) Hn).
  destruct (for_loop qmt st1 (length pre) post) as [st|e] eqn:E2; [|reflexivity].
  split; [reflexivity|]. intros i Hi.
  by destruct (for_loop_index_ge post st1 (length pre) st i Hn E2 Hi) as [? _].
Qed.

Lemma global_operations_skips pre b post fs st :
  (forall i, l_global_operations_index st = Some i -> (length pre <= i)%nat) ->
  global_operations (pre ++ b :: post) fs (shift_index 1 st)
  = global_operations (pre ++ post) fs st.
Proof.
  intros Hge. unfold global_operations, shift_index. simpl.
  destruct (l_global_operations_index st) as [i|]; simpl; [|reflexivity].
  specialize (Hge i eq_refl).
  rewrite !drop_app_ge by lia.
  replace (i + 1 + 1 - length pre)%nat with (S (i + 1 - length pre)) by lia.
  reflexivity.
Qed.

End index_facts.

(** ** The kinds of errors of the loop *)

Section error_facts.
Context {QueryMetadataTable : Type} (qmt : QueryMetadataTable).

Lemma get_only_element_Raise X e :
  get_only_element_from_collection X = Raise e -> is_assertion e.
Proof.
  unfold get_only_element_from_collection.
  destruct (elements X) as [|x [|y l]]; intros H; try discriminate H;
    injection H as <-; by eexists.
Qed.

Lemma bind_Raise {A B} (r : result A) (k : A -> result B) e :
  r ≫= k = Raise e -> r = Raise e \/ exists a, r = Ok a /\ k a = Raise e.
Proof. destruct r as [a|e']; simpl; [eauto | intros [= ->]; by left]. Qed.

Lemma make_query_root_Raise linked buf e :
  _make_query_root_cypher_step qmt linked buf = Raise e -> is_assertion e.
Proof.
  unfold _make_query_root_cypher_step. intros H.
  repeat match type of H with
         | match ?x with _ => _ end = _ => destruct x
         end;
    try (injection H as <-; by eexists);
    apply bind_Raise in H as [H|(a & _ & H)]; try discriminate H;
    by apply get_only_element_Raise in H.
Qed.

Lemma make_cypher_step_Raise linked cur e :
  cur <> Some [] ->
  _make_cypher_step qmt linked cur = Raise e ->
  is_assertion e \/ (e = TypeError /\ cur = None).
Proof.
  intros Hne H. unfold _make_cypher_step in H.
  destruct cur as [[|b rest]|]; cbv beta iota in H.
  - by destruct Hne.
  - left. destruct (isinstance b [TQueryRoot]).
    + by apply make_query_root_Raise in H.
    + repeat match type of H with
             | match ?x with _ => _ end = _ => destruct x
             end;
        try (injection H as <-; by eexists);
        apply bind_Raise in H as [H|(a & _ & H)]; try discriminate H;
        by apply get_only_element_Raise in H.
  - right. injection H as <-. auto.
Qed.

Lemma loop_body_Raise st idx block e :
  l_current_step_blocks st <> Some [] ->
  loop_body qmt st idx block = Raise e ->
  is_assertion e
  \/ ((e = TypeError \/ e = AttributeError) /\ l_current_step_blocks st = None).
Proof.
  intros Hne H. unfold loop_body in H. destruct block; cbn in H.
  all: try (injection H as <-; left; by eexists).
  all: try (destruct (l_current_step_blocks st) as [buf|]; cbn in H;
            [try discriminate H; injection H as <-; left; by eexists
            |try discriminate H; injection H as <-; right; auto]).
  all: apply bind_Raise in H as [H|(s & _ & H)]; try discriminate H;
    apply make_cypher_step_Raise in H as [H|[-> H]]; auto.
Qed.

Lemma loop_body_keeps_buffer st idx block st' :
  loop_body qmt st idx block = Ok (st', false) ->
  (l_current_step_blocks st <> Some [] -> l_current_step_blocks st' <> Some [])
  /\ (l_current_step_blocks st' = None -> l_current_step_blocks st = None).
Proof.
  intros H. apply loop_body_cases in H
    as [(_ & Hb & _)|[(_ & _ & Hnone & ->)|[(_ & _ & s & _ & ->)
       |[(_ & l & buf & _ & Hbuf & ->)|[(_ & l & _ & ->)
       |[(_ & _ & ->)|(_ & _ & buf & Hbuf & ->)]]]]]]; simpl;
    try discriminate Hb; try (split; [discriminate | discriminate]); auto.
  - split; [intros _ E; injection E as E; by apply app_eq_nil in E as [_ ?]
           | discriminate].
  - split; [intros _ E; injection E as E; by apply app_eq_nil in E as [_ ?]
           | discriminate].
Qed.

Lemma for_loop_Raise blocks : forall st idx e,
  l_current_step_blocks st <> Some [] ->
  for_loop qmt st idx blocks = Raise e ->
  is_assertion e
  \/ ((e = TypeError \/ e = AttributeError) /\ l_current_step_blocks st = None).
Proof.
  induction blocks as [|block rest IH]; intros st idx e Hne H; simpl in H;
    [discriminate H|].
  apply bind_Raise in H as [H|([st1 brk] & Hb & H)].
  - by apply (loop_body_Raise st idx block).
  - destruct brk; [discriminate H|].
    apply loop_body_keeps_buffer in Hb as [Hkeep Hnone].
    destruct (IH _ _ _ (Hkeep Hne) H) as [Ha|[He Hn]]; [by left|].
    right. split; [exact He | by apply Hnone].
Qed.

Lemma loop_body_passed_over st idx block :
  passed_over block ->
  exists st', loop_body qmt st idx block = Ok (st', false)
              /\ l_current_step_blocks st' = l_current_step_blocks st.
Proof.
  unfold passed_over, loop_body. intros H.
  destruct block; try discriminate H; cbn; by eexists.
Qed.

Lemma for_loop_after_root skipped c rest : forall st idx e,
  Forall passed_over skipped ->
  l_current_step_blocks st = None ->
  for_loop qmt st idx (skipped ++ QueryRoot c :: rest) = Raise e ->
  is_assertion e.
Proof.
  induction skipped as [|b skipped IH]; intros st idx e Hs Hn H; simpl in H.
  - unfold loop_body in H. cbn in H. rewrite Hn in H. simpl in H.
    apply for_loop_Raise in H as [H|[_ H]]; [exact H | discriminate H | discriminate].
  - apply Forall_cons in Hs as [Hb Hs].
    destruct (loop_body_passed_over st idx b Hb) as (st1 & E & Hcur).
    rewrite E in H. simpl in H. apply (IH st1 (S idx) e Hs); [congruence | exact H].
Qed.

Lemma global_operations_Raise rem fs st e :
  global_operations rem fs st = Raise e -> is_assertion e.
Proof.
  unfold global_operations. intros H.
  repeat match type of H with
         | match ?x with _ => _ end = _ => destruct x
         end;
    try discriminate H; injection H as <-; by eexists.
Qed.

End error_facts.

(** ** The blocks before [GlobalOperationsStart] *)

Section prefix_facts.
Context {QueryMetadataTable : Type} (qmt : QueryMetadataTable).

Lemma loop_body_continue_block st idx block st' :
  loop_body qmt st idx block = Ok (st', false) ->
  block <> GlobalOperationsStart /\ (kept block = true \/ passed_over block).
Proof.
  unfold loop_body, passed_over. destruct block; cbn; intros H;
    try discriminate H; try (split; [discriminate | auto]).
  apply bind_Ok in H as (s & _ & H). discriminate H.
Qed.

Lemma for_loop_prefix blocks : forall st idx st',
  l_global_operations_index st = None ->
  for_loop qmt st idx blocks = Ok st' ->
  l_global_operations_index st' = None
  \/ exists mid post,
       blocks = mid ++ GlobalOperationsStart :: post
       /\ GlobalOperationsStart ∉ mid
       /\ Forall (fun b => kept b = true \/ passed_over b) mid.
Proof.
  induction blocks as [|block rest IH]; intros st idx st' Hn H; simpl in H.
  - injection H as <-. by left.
  - apply bind_Ok in H as ([st1 brk] & Hb & H). destruct brk.
    + injection H as <-. apply loop_body_break in Hb as (-> & _).
      right. exists [], rest. split; [reflexivity|]. split; [apply not_elem_of_nil|].
      constructor.
    + pose proof (loop_body_keeps_index qmt _ _ _ _ Hb) as Hi. rewrite Hn in Hi.
      apply loop_body_continue_block in Hb as [Hne Hok].
      destruct (IH _ _ _ Hi H) as [Hnone|(mid & post & -> & Hg & Hall)]; [by left|].
      right. exists (block :: mid), post. split; [reflexivity|].
      split; [|by constructor].
      apply not_elem_of_cons. split; [congruence | exact Hg].
Qed.

Lemma first_split_unique {A} (x : A) l1 : forall l2 l3 l4,
  l1 ++ x :: l2 = l3 ++ x :: l4 -> x ∉ l1 -> x ∉ l3 -> l1 = l3 /\ l2 = l4.
Proof.
  induction l1 as [|a l1 IH]; intros l2 [|b l3] l4 H H1 H3; simpl in H.
  - by injection H.
  - injection H as -> _. exfalso. apply H3. left.
  - injection H as -> _. exfalso. apply H1. left.
  - injection H as -> H. apply not_elem_of_cons in H1 as [_ H1].
    apply not_elem_of_cons in H3 as [_ H3].
    destruct (IH _ _ _ H H1 H3) as [-> ->]. done.
Qed.

Lemma convert_prefix extract ir fs rem q :
  extract ir = Ok (fs, rem) ->
  convert_to_cypher_query extract ir qmt = Ok q ->
  exists mid post,
    rem = mid ++ GlobalOperationsStart :: post
    /\ GlobalOperationsStart ∉ mid
    /\ Forall (fun b => kept b = true \/ passed_over b) mid.
Proof.
  intros He H. unfold convert_to_cypher_query in H. rewrite He in H. simpl in H.
  apply bind_Ok in H as (st & Hl & H).
  apply global_operations_Ok in H as (_ & _ & Hidx).
  destruct (for_loop_prefix rem initial_locals 0%nat st eq_refl Hl) as [Hn|H'];
    [by destruct Hidx | exact H'].
Qed.

End prefix_facts.

(** ** The step assembler: the properties of the specification *)

(** C2. For every IR stream that [convert_to_cypher_query] accepts, the
    number of steps of the returned query is the number of [QueryRoot],
    [Traverse] and [Recurse] blocks of the stream left by fold extraction. *)
Theorem steps_count {T} (qmt : T) extract ir fs rem q :
  extract ir = Ok (fs, rem) ->
  convert_to_cypher_query extract ir qmt = Ok q ->
  length (steps q) = length (List.filter opens_step rem).
Proof.
  intros He H.
  rewrite <- (step_blocks_in_order qmt extract ir fs rem q He H).
  by rewrite length_map.
Qed.

Lemma steps_count_witness :
  length (steps (example_query "Animal___1" "Animal__out_ParentOf___1" [] ∅))
  = length (List.filter opens_step
              (example_stream "Animal___1" "Animal__out_ParentOf___1" [])).
Proof.
  apply (steps_count tt extract_folds_from_ir_blocks
           (example_stream "Animal___1" "Animal__out_ParentOf___1" []) ∅
           (example_stream "Animal___1" "Animal__out_ParentOf___1" [])).
  - vm_compute. reflexivity.
  - vm_compute. reflexivity.
Defined.

(** C5, as amended. A stream whose remainder after fold extraction has no
    [GlobalOperationsStart], or has blocks after a [GlobalOperationsStart]
    that are neither [[ConstructResult]] nor [[Filter; ConstructResult]],
    makes [convert_to_cypher_query] raise: no query, partial or not, is
    returned. The exception is an [AssertionError] whenever the first block
    of the remainder that the loop does not pass over is the [QueryRoot];
    for any other remainder it is an [AssertionError], or the [TypeError] or
    [AttributeError] of a step buffer that is still [None]. *)
Theorem malformed_stream_raises {T} (qmt : T) extract ir fs rem :
  extract ir = Ok (fs, rem) ->
  (GlobalOperationsStart ∉ rem) \/
  (exists pre post, rem = pre ++ GlobalOperationsStart :: post /\ ~ trailing_ok post) ->
  raises (convert_to_cypher_query extract ir qmt) /\
  ~ returns (convert_to_cypher_query extract ir qmt) /\
  forall e, convert_to_cypher_query extract ir qmt = Raise e ->
    (is_assertion e \/ e = TypeError \/ e = AttributeError)
    /\ ((exists skipped start_class rest,
           rem = skipped ++ QueryRoot start_class :: rest /\ Forall passed_over skipped) ->
        is_assertion e).
Proof.
  intros He Hbad.
  assert (Hn : ~ returns (convert_to_cypher_query extract ir qmt)).
  { intros [q H].
    apply convert_Ok in H as (rem' & mid & He' & -> & Hmid & _ & _ & Hg & Ho).
    rewrite He in He'. injection He' as _ ->.
    destruct (trailing_inert q Hg Ho) as (_ & _ & Hok).
    destruct Hbad as [Hno|(pre & post & Heq & Hpost)].
    - apply Hno. apply elem_of_app. right. left.
    - symmetry in Heq. apply split_unique in Heq as [_ ->]; [done | done |].
      destruct Hg as [->|[p ->]], Ho as [fields ->]; simpl; intros Hin;
        repeat (apply elem_of_cons in Hin as [Hin|Hin]; [discriminate Hin|]);
        by apply elem_of_nil in Hin. }
  split; [by apply raises_not_returns|]. split; [done|].
  intros e H. unfold convert_to_cypher_query in H. rewrite He in H. simpl in H.
  apply bind_Raise in H as [H|(st & _ & H)].
  - split.
    + apply for_loop_Raise in H as [H|[[->| ->] _]]; [auto..|discriminate].
    + intros (skipped & c & rest & -> & Hs).
      by apply (for_loop_after_root qmt skipped c rest initial_locals 0%nat e).
  - apply global_operations_Raise in H. auto.
Qed.

Lemma malformed_stream_raises_witness :
  let stream := [QueryRoot {[ "Animal" ]}; MarkLocation "Animal___1"] in
  exists site,
    convert_to_cypher_query extract_folds_from_ir_blocks stream tt
    = Raise (AssertionError site).
Proof.
  intros stream.
  destruct (malformed_stream_raises tt extract_folds_from_ir_blocks stream ∅ stream)
    as ([e He] & _ & Hkind).
  - reflexivity.
  - left. intros Hin.
    repeat (apply elem_of_cons in Hin as [Hin|Hin]; [discriminate Hin|]).
    by apply elem_of_nil in Hin.
  - destruct (proj2 (Hkind e He)) as [site ->]; [|by exists site].
    exists [], {[ "Animal" ]}, [MarkLocation "Animal___1"].
    split; [reflexivity | constructor].
Defined.

(** C5 as stated does not hold: the remainder [[GlobalOperationsStart]] has
    nothing after its [GlobalOperationsStart], and the error is the
    [TypeError] of [current_step_blocks[0]] on [None], raised at line 58
    before line 178 is reached; it is not an [AssertionError]. *)
Lemma stream_without_root_raises_TypeError :
  let stream := [GlobalOperationsStart] in
  extract_folds_from_ir_blocks stream = Ok (∅, stream)
  /\ (exists pre post, stream = pre ++ GlobalOperationsStart :: post /\ ~ trailing_ok post)
  /\ convert_to_cypher_query extract_folds_from_ir_blocks stream tt = Raise TypeError
  /\ ~ is_assertion TypeError.
Proof.
  intros stream. split; [reflexivity|]. split; [|split].
  - exists [], []. split; [reflexivity|]. intros [H|H]; discriminate H.
  - reflexivity.
  - intros [site H]. discriminate H.
Qed.

(** C4, as amended. On the example stream of the specification the assembler
    returns exactly two steps, and the second one has the [Filter] block as
    its [where_block], [{Animal}] as its [step_types], and is linked to the
    location marked by the first step: [MarkLocation] is a source of linked
    locations, just as [Backtrack] is. *)
Theorem example_two_steps {T} (qmt : T) extract L1 L2 outputs fs :
  extract (example_stream L1 L2 outputs) = Ok (fs, example_stream L1 L2 outputs) ->
  exists q s1 s2,
    convert_to_cypher_query extract (example_stream L1 L2 outputs) qmt = Ok q /\
    steps q = [s1; s2] /\
    where_block s2 = Some (Filter age_gt_0) /\
    step_types s2 = {[ "Animal" ]} /\
    linked_location s2 = Some L1.
Proof.
  intros He. exists (example_query L1 L2 outputs fs). do 2 eexists.
  split; [|split; [reflexivity|auto]].
  unfold convert_to_cypher_query. rewrite He. vm_compute. reflexivity.
Qed.

Lemma example_two_steps_witness :
  exists q s1 s2,
    convert_to_cypher_query extract_folds_from_ir_blocks
      (example_stream "Animal___1" "Animal__out_ParentOf___1" []) tt = Ok q /\
    steps q = [s1; s2] /\
    where_block s2 = Some (Filter age_gt_0) /\
    step_types s2 = {[ "Animal" ]} /\
    linked_location s2 = Some "Animal___1".
Proof.
  apply (example_two_steps tt extract_folds_from_ir_blocks
           "Animal___1" "Animal__out_ParentOf___1" [] ∅).
  vm_compute. reflexivity.
Defined.

(** C4 as the specification states it, with [linked_location] equal to
    [None], does not hold. *)
Lemma example_linked_location_not_None :
  ~ exists q s1 s2,
      convert_to_cypher_query extract_folds_from_ir_blocks
        (example_stream "Animal___1" "Animal__out_ParentOf___1" []) tt = Ok q /\
      steps q = [s1; s2] /\
      where_block s2 = Some (Filter age_gt_0) /\
      step_types s2 = {[ "Animal" ]} /\
      linked_location s2 = None.
Proof.
  intros (q & s1 & s2 & Hq & Hs & _ & _ & Hl).
  assert (Hq' : convert_to_cypher_query extract_folds_from_ir_blocks
                  (example_stream "Animal___1" "Animal__out_ParentOf___1" []) tt
                = Ok (example_query "Animal___1" "Animal__out_ParentOf___1" [] ∅))
    by (vm_compute; reflexivity).
  rewrite Hq' in Hq. injection Hq as <-. simpl in Hs.
  injection Hs as _ <-. discriminate Hl.
Qed.

(** C6, as amended. A finished step buffer (one opened by a [QueryRoot],
    [Traverse] or [Recurse] block) yields a step if and only if its
    block-type shape is one of the six allowed ones and the type collection
    of its [QueryRoot] or [CoerceType] block has exactly one element; every
    other buffer raises, and the exception aborts the whole assembly. *)
Theorem step_buffer_shapes {T} (qmt : T) linked b rest :
  opens_step b = true ->
  (returns (_make_cypher_step qmt linked (Some (b :: rest))) <->
   map type_of (b :: rest) ∈ allowed_shapes /\
   exists X, buffer_types (b :: rest) = Some X /\ size X = 1%nat) /\
  (~ returns (_make_cypher_step qmt linked (Some (b :: rest))) ->
   exists e, _make_cypher_step qmt linked (Some (b :: rest)) = Raise e /\
     forall extract ir fs pre block post st,
       extract ir = Ok (fs, pre ++ block :: post) ->
       for_loop qmt initial_locals 0 pre = Ok st ->
       l_global_operations_index st = None ->
       l_linked_location st = linked ->
       l_current_step_blocks st = Some (b :: rest) ->
       isinstance block [TGlobalOperationsStart; TTraverse; TRecurse] = true ->
       convert_to_cypher_query extract ir qmt = Raise e).
Proof.
  intros Hb. split; [by apply make_cypher_step_returns|].
  intros Hn. apply raises_not_returns in Hn as [e He]. exists e. split; [done|].
  intros extract ir fs pre block post st Hex Hpre Hidx Hl Hc Hblock.
  unfold convert_to_cypher_query. rewrite Hex. cbn.
  rewrite (for_loop_app qmt pre _ _ _ (block :: post) Hpre Hidx). cbn.
  rewrite (loop_body_finishes qmt st _ block e Hblock); [done|].
  by rewrite Hl, Hc.
Qed.

Lemma step_buffer_shapes_witness :
  returns (_make_cypher_step tt None
             (Some [QueryRoot {[ "Animal" ]}; MarkLocation "Animal___1"])).
Proof.
  apply (step_buffer_shapes tt None (QueryRoot {[ "Animal" ]})
           [MarkLocation "Animal___1"]); [reflexivity|].
  split; [vm_compute; set_solver|].
  eexists. split; [reflexivity|]. apply size_singleton.
Defined.

(** C6 as the specification states it does not hold: a buffer of shape
    [[QueryRoot; MarkLocation]] whose start-type collection has two elements
    yields no step. *)
Lemma allowed_shape_without_step :
  let buf := [QueryRoot {[ "Animal"; "Species" ]}; MarkLocation "Animal___1"] in
  map type_of buf ∈ allowed_shapes /\
  ~ returns (_make_cypher_step tt None (Some buf)).
Proof.
  split.
  - left.
  - intros [s Hs]. vm_compute in Hs. discriminate Hs.
Qed.

(** C10. [convert_to_cypher_query] succeeds only if the start-type
    collection of the [QueryRoot] block and the target-type collection of
    every [CoerceType] block of the stream have exactly one element; when
    they all have, the singleton-extraction failure cannot be raised, and
    the [step_types] of the returned steps are these very collections, in
    stream order, each a singleton. *)
Theorem singleton_type_collections {T} (qmt : T) extract ir fs rem :
  extract ir = Ok (fs, rem) ->
  (forall q, convert_to_cypher_query extract ir qmt = Ok q ->
     Forall (fun X : gset string => size X = 1%nat) (omap declared_types rem) /\
     map step_types (steps q) = omap declared_types rem /\
     Forall (fun s => exists t, step_types s = {[ t ]}) (steps q)) /\
  (Forall (fun X : gset string => size X = 1%nat) (omap declared_types rem) ->
     convert_to_cypher_query extract ir qmt <> Raise (AssertionError NotOneElement)).
Proof.
  intros He. split.
  - intros q H. destruct (step_types_in_order qmt extract ir fs rem q He H) as [Hm Hs].
    split; [|done]. rewrite <- Hm. apply Forall_map.
    eapply Forall_impl; [exact Hs|]. intros s [t ->]. apply size_singleton.
  - intros Hall H. unfold convert_to_cypher_query in H. rewrite He in H. cbn in H.
    destruct (for_loop qmt initial_locals 0 rem) as [st|e] eqn:E; cbn in H.
    + unfold global_operations in H.
      destruct (l_global_operations_index st); [|discriminate H].
      destruct (drop _ rem) as [|[] [|[] [|? ?]]]; discriminate H.
    + injection H as ->. apply for_loop_NotOneElement in E. cbn in E.
      apply Exists_exists in E as (b & Hb & X & HX & Hsize). apply Hsize.
      rewrite Forall_forall in Hall. apply Hall.
      apply list_elem_of_omap. eauto.
Qed.

Lemma singleton_type_collections_witness :
  (forall q, convert_to_cypher_query extract_folds_from_ir_blocks
               (example_stream "Animal___1" "Animal__out_ParentOf___1" []) tt = Ok q ->
     Forall (fun X : gset string => size X = 1%nat)
       (omap declared_types (example_stream "Animal___1" "Animal__out_ParentOf___1" [])) /\
     map step_types (steps q)
     = omap declared_types (example_stream "Animal___1" "Animal__out_ParentOf___1" []) /\
     Forall (fun s => exists t, step_types s = {[ t ]}) (steps q)) /\
  (Forall (fun X : gset string => size X = 1%nat)
     (omap declared_types (example_stream "Animal___1" "Animal__out_ParentOf___1" [])) ->
   convert_to_cypher_query extract_folds_from_ir_blocks
     (example_stream "Animal___1" "Animal__out_ParentOf___1" []) tt
   <> Raise (AssertionError NotOneElement)).
Proof.
  apply (singleton_type_collections tt extract_folds_from_ir_blocks _ ∅).
  vm_compute. reflexivity.
Defined.

(** * The step assembler: more properties *)

(** Every query [convert_to_cypher_query] returns has at least one step. Its
    first step is the step of the [QueryRoot] and is linked to no location;
    every later step is the step of a [Traverse] or of a [Recurse] and is
    linked to a location, the one marked last before the step was opened. *)
Theorem steps_start_at_root {T} (qmt : T) extract ir q :
  convert_to_cypher_query extract ir qmt = Ok q ->
  exists s rest,
    steps q = s :: rest
    /\ isinstance (step_block s) [TQueryRoot] = true
    /\ linked_location s = None
    /\ Forall (fun s' => isinstance (step_block s') [TTraverse; TRecurse] = true
                         /\ linked_location s' <> None) rest.
Proof.
  intros H. apply convert_steps_shape in H as [Hs Hn].
  destruct (steps q) as [|s rest]; [done|].
  exists s, rest. destruct Hs as (Hr & Hl & Hrest). auto.
Qed.

Lemma steps_start_at_root_witness :
  exists s rest,
    steps (example_query "Animal___1" "Animal__out_ParentOf___1" [] ∅) = s :: rest
    /\ isinstance (step_block s) [TQueryRoot] = true
    /\ linked_location s = None
    /\ Forall (fun s' => isinstance (step_block s') [TTraverse; TRecurse] = true
                         /\ linked_location s' <> None) rest.
Proof.
  apply (steps_start_at_root tt extract_folds_from_ir_blocks
           (example_stream "Animal___1" "Animal__out_ParentOf___1" [])).
  vm_compute. reflexivity.
Defined.

(** The steps of the returned query are the stream laid out again. The
    stream left by fold extraction is a prefix, the first
    [GlobalOperationsStart], then the global filter if the query has one and
    the output block. Every block of the prefix is a [QueryRoot], [Traverse],
    [Recurse], [MarkLocation], [Filter] or [CoerceType], which goes into a
    step, or a [Backtrack], [Unfold], [OutputSource] or [EndOptional], which
    does not; and the prefix without the blocks of these four kinds is the
    blocks of the steps one after the other: the opening block, the
    [CoerceType] of the step types unless the block is the [QueryRoot], the
    filter if there is one, the [MarkLocation]. No block of the stream is
    lost or moved to another step. *)
Theorem stream_is_steps_laid_out {T} (qmt : T) extract ir fs rem q :
  extract ir = Ok (fs, rem) ->
  convert_to_cypher_query extract ir qmt = Ok q ->
  folds q = fs
  /\ exists prefix,
       rem = prefix ++ GlobalOperationsStart
                    :: option_list (global_where_block q) ++ [output_block q]
       /\ GlobalOperationsStart ∉ prefix
       /\ Forall (fun b => kept b = true \/ passed_over b) prefix
       /\ List.filter (fun b => negb (isinstance b (TBacktrack :: discarded_block_types)))
            prefix
          = flat_map blocks_of_step (steps q).
Proof.
  intros He H.
  destruct (convert_prefix qmt extract ir fs rem q He H) as (mid' & post' & Hrem' & Hg' & Hall).
  apply convert_Ok in H as (rem' & mid & He' & Hrem & Hg & Hk & _).
  rewrite He in He'. injection He' as <- <-. split; [reflexivity|].
  rewrite Hrem' in Hrem. apply first_split_unique in Hrem as [<- ->]; [|done|done].
  exists mid'. split; [exact Hrem'|]. split; [exact Hg'|]. split; [exact Hall|].
  rewrite <- Hk. clear -Hall.
  induction Hall as [|b l Hb _ IH]; [reflexivity|]. simpl. rewrite IH.
  destruct Hb as [Hb|Hb].
  - rewrite Hb. by destruct b.
  - unfold passed_over in Hb. rewrite Hb. by destruct b.
Qed.

Lemma stream_is_steps_laid_out_witness :
  let q := example_query "Animal___1" "Animal__out_ParentOf___1" [] ∅ in
  exists prefix,
    example_stream "Animal___1" "Animal__out_ParentOf___1" []
    = prefix ++ GlobalOperationsStart
             :: option_list (global_where_block q) ++ [output_block q]
    /\ GlobalOperationsStart ∉ prefix
    /\ Forall (fun b => kept b = true \/ passed_over b) prefix
    /\ List.filter (fun b => negb (isinstance b (TBacktrack :: discarded_block_types)))
         prefix
       = flat_map blocks_of_step (steps q).
Proof.
  intros q.
  apply (stream_is_steps_laid_out tt extract_folds_from_ir_blocks
           (example_stream "Animal___1" "Animal__out_ParentOf___1" []) ∅
           (example_stream "Animal___1" "Animal__out_ParentOf___1" []) q).
  - vm_compute. reflexivity.
  - vm_compute. reflexivity.
Defined.

(** The blocks the loop discards ([Unfold], [OutputSource], [EndOptional])
    change nothing: with one of them put anywhere before the first
    [GlobalOperationsStart] of the stream left by fold extraction,
    [convert_to_cypher_query] returns the same query, or raises the same
    error, as without it. *)
Theorem discarded_blocks_change_nothing {T} (qmt : T) extract extract' ir ir' fs
    pre b post :
  isinstance b discarded_block_types = true ->
  GlobalOperationsStart ∉ pre ->
  extract ir = Ok (fs, pre ++ b :: post) ->
  extract' ir' = Ok (fs, pre ++ post) ->
  convert_to_cypher_query extract ir qmt = convert_to_cypher_query extract' ir' qmt.
Proof.
  intros Hb Hpre He He'. unfold convert_to_cypher_query. rewrite He, He'. simpl.
  pose proof (for_loop_skips qmt pre b post Hb Hpre) as H.
  destruct (for_loop qmt initial_locals 0 (pre ++ post)) as [st|e].
  - destruct H as [-> Hge]. simpl. by apply global_operations_skips.
  - by rewrite H.
Qed.

Lemma discarded_blocks_change_nothing_witness :
  let keep := fun blocks : list Block => Ok (∅ : gmap Location (list Block), blocks) in
  let stream := example_stream "Animal___1" "Animal__out_ParentOf___1" [] in
  convert_to_cypher_query keep (take 3 stream ++ OutputSource :: drop 3 stream) tt
  = convert_to_cypher_query keep stream tt.
Proof.
  intros keep stream.
  apply (discarded_blocks_change_nothing tt keep keep _ _ ∅
           (take 3 stream) OutputSource (drop 3 stream)).
  - reflexivity.
  - vm_compute. intros H. repeat (apply elem_of_cons in H as [H|H]; [discriminate H|]).
    by apply not_elem_of_nil in H.
  - reflexivity.
  - reflexivity.
Defined.

(** * The SQL emitter: proofs *)

Import sqlalchemy emit_sql.

Lemma set_from_clause_same node f :
  from_clause node = Some f -> set_from_clause f node = node.
Proof. destruct node; simpl; intros ->; reflexivity. Qed.

Lemma join_loop_Ok isouter child g onclauses : forall node f,
  from_clause node = Some f -> from_clause child = Some g ->
  join_loop isouter node child onclauses
  = Ok (set_from_clause (join_all isouter f g onclauses) node).
Proof.
  induction onclauses as [|[t onclause] rest IH]; intros node f Hf Hg.
  - simpl. by rewrite set_from_clause_same.
  - simpl. rewrite Hf, Hg. simpl.
    erewrite IH; [reflexivity | reflexivity | exact Hg].
Qed.

Lemma join_all_snoc isouter f g onclauses t onclause :
  join_all isouter f g (onclauses ++ [(t, onclause)])
  = Join (join_all isouter f g onclauses) g onclause isouter.
Proof. unfold join_all. by rewrite fold_left_app. Qed.

Lemma set_join_kind_join_all b b' f g onclauses :
  set_join_kind (length onclauses) b (join_all b' f g onclauses) = join_all b f g onclauses.
Proof.
  induction onclauses as [|[t onclause] rest IH] using rev_ind.
  - reflexivity.
  - rewrite !join_all_snoc, length_app, Nat.add_1_r. simpl. by rewrite IH.
Qed.

Lemma join_to_node_Ok node child md f g :
  from_clause node = Some f -> from_clause child = Some g ->
  _join_to_node node child md
  = Ok (set_from_clause
          (join_all (in_optional child) f g (get_on_clause_for_node md child)) node).
Proof.
  intros Hf Hg. unfold _join_to_node.
  destruct (in_optional child); by apply join_loop_Ok.
Qed.

(** ** Induction over a tree *)

Lemma SqlNode_tree_ind (P : SqlNode -> Prop) :
  (forall node,
     Forall P (children_nodes node) -> Forall P (recursions node) -> P node) ->
  forall node, P node.
Proof.
  intros H. fix IH 1. intros [id p b r o children recs s pr lc rc t f].
  apply H; simpl.
  - induction children as [|c cs IHcs]; constructor; [apply IH | exact IHcs].
  - induction recs as [|c cs IHcs]; constructor; [apply IH | exact IHcs].
Qed.

Lemma for_each_Ok {A B} (f : A -> result B) l bs :
  for_each f l = Ok bs <-> Forall2 (fun a b => f a = Ok b) l bs.
Proof.
  revert bs. induction l as [|a l IH]; intros bs; simpl.
  - split.
    + intros H. injection H as <-. constructor.
    + intros H. by inversion H.
  - split.
    + intros H. apply bind_Ok in H as (b & Hb & H).
      apply bind_Ok in H as (bs' & Hbs & H). injection H as <-.
      constructor; [exact Hb | by apply IH].
    + intros H. inversion H as [|a' b l' bs' Hb Hbs]; subst.
      rewrite Hb. simpl. apply IH in Hbs. rewrite Hbs. reflexivity.
Qed.

(** The loop over the children inside [_collapse_query_tree] is [for_each]. *)
Lemma collapse_unfold md node :
  _collapse_query_tree md node
  = children ← for_each (_collapse_query_tree md) (children_nodes node);
    let node := set_children_nodes children node in
    let '(_, node) := _create_and_reference_table node md in
    node ← _create_links_for_recursions node md;
    pull_up_loop node children md.
Proof.
  destruct node as [id p b r o children recs s pr lc rc t f]. simpl.
  match goal with
  | |- ?F children ≫= _ = _ =>
      assert (E : forall l, F l = for_each (_collapse_query_tree md) l)
  end.
  { induction l as [|c l IH]; [reflexivity|]. simpl. rewrite IH. reflexivity. }
  rewrite E. reflexivity.
Qed.

(** ** What the steps of the collapse change *)

Lemma with_from_clause_same node : with_from_clause (from_clause node) node = node.
Proof. by destruct node. Qed.

Lemma join_loop_frame isouter child onclauses : forall node node',
  join_loop isouter node child onclauses = Ok node' ->
  node' = with_from_clause (from_clause node') node.
Proof.
  induction onclauses as [|[t onclause] rest IH]; intros node node' H; simpl in H.
  - injection H as <-. by rewrite with_from_clause_same.
  - apply bind_Ok in H as (l & _ & H). apply bind_Ok in H as (r & _ & H).
    apply IH in H. rewrite H at 1. reflexivity.
Qed.

Lemma join_to_node_frame node child md node' :
  _join_to_node node child md = Ok node' ->
  node' = with_from_clause (from_clause node') node.
Proof.
  unfold _join_to_node. destruct (in_optional child); apply join_loop_frame.
Qed.

Lemma first_relation_join_all b f g onclauses :
  first_relation (join_all b f g onclauses) = first_relation f.
Proof.
  induction onclauses as [|[t onclause] rest IH] using rev_ind; [reflexivity|].
  rewrite join_all_snoc. exact IH.
Qed.

Lemma joined_relations_join_all b f g onclauses :
  joined_relations (join_all b f g onclauses)
  = joined_relations f ++ replicate (length onclauses) g.
Proof.
  induction onclauses as [|[t onclause] rest IH] using rev_ind.
  - simpl. by rewrite app_nil_r.
  - rewrite join_all_snoc, length_app, Nat.add_1_r, replicate_S_end.
    cbn [joined_relations]. by rewrite IH, app_assoc.
Qed.

(** ** The dictionary of link columns *)

Lemma dict_get_set_same d i v : dict_get (dict_set d (NodeKey i) v) i = Ok v.
Proof.
  induction d as [|[[j|r] w] d IH]; simpl.
  - by rewrite decide_True.
  - destruct (decide (j = i)) as [->|Hne]; simpl.
    + by rewrite decide_True.
    + by rewrite decide_False.
  - exact IH.
Qed.

Lemma dict_get_set_other d k v i :
  k <> NodeKey i -> dict_get (dict_set d k v) i = dict_get d i.
Proof.
  intros Hk. induction d as [|[[j|r] w] d IH]; simpl.
  - destruct k as [j|r]; simpl; [|reflexivity].
    rewrite decide_False; [reflexivity | congruence].
  - destruct k as [j'|r]; simpl.
    + destruct (decide (j = j')) as [->|Hne]; simpl.
      * rewrite !decide_False by congruence. reflexivity.
      * destruct (decide (j = i)); [reflexivity | exact IH].
    + destruct (decide (j = i)); [reflexivity | exact IH].
  - destruct k; exact IH.
Qed.

Lemma has_key_set d k v i : has_key d i -> has_key (dict_set d k v) i.
Proof.
  intros H. unfold has_key. destruct k as [j|r].
  - destruct (decide (j = i)) as [->|Hne].
    + eexists. apply dict_get_set_same.
    + rewrite dict_get_set_other; [exact H | congruence].
  - by rewrite dict_get_set_other.
Qed.

Lemma has_key_merge_old l : forall d i,
  has_key d i ->
  has_key (fold_left (fun d '(k, v) => dict_set d k v) l d) i.
Proof.
  induction l as [|[k v] l IH]; intros d i H; simpl; [exact H|].
  apply IH. by apply has_key_set.
Qed.

Lemma has_key_merge_new l : forall d i,
  has_key l i ->
  has_key (fold_left (fun d '(k, v) => dict_set d k v) l d) i.
Proof.
  induction l as [|[k v] l IH]; intros d i H; simpl.
  - destruct H as [c H]. discriminate H.
  - unfold has_key in H. simpl in H. destruct k as [j|r].
    + destruct (decide (j = i)) as [->|Hne].
      * apply has_key_merge_old. eexists. apply dict_get_set_same.
      * by apply IH.
    + by apply IH.
Qed.

(** ** The links to the recursions *)

Lemma with_links_same node :
  with_links (link_columns node) (recursion_to_column node) node = node.
Proof. by destruct node. Qed.

Lemma c_item_Ok md relation name column :
  c_item md relation name = Ok column ->
  column = Column relation name /\ has_column md relation name = true.
Proof.
  unfold c_item. destruct (has_column md relation name); [|discriminate].
  intros H. by injection H as <-.
Qed.

Lemma create_link_cases node r md t :
  table node = Some t ->
  (exists e, link_error e /\ _create_link_for_recursion node r md = Raise e)
  \/ exists col,
       _create_link_for_recursion node r md
       = Ok (add_recursive_link_column (NodeKey (node_id r)) (Column t col) node).
Proof.
  intros Ht. unfold _create_link_for_recursion, c_item.
  destruct (get_edge md node (relation r)) as [edge|edge ?|]; rewrite ?Ht; simpl.
  1,2: destruct (has_column md t (source_col edge)); simpl;
       [right; by eexists | left; eexists; split; [right; by eexists | reflexivity]].
  left. eexists. split; [by left | reflexivity].
Qed.

Lemma create_link_returns node r md t :
  links_resolve md ->
  table node = Some t ->
  exists col,
    _create_link_for_recursion node r md
    = Ok (add_recursive_link_column (NodeKey (node_id r)) (Column t col) node).
Proof.
  intros [Hedge Hcol] Ht. unfold _create_link_for_recursion, c_item.
  specialize (Hedge node (relation r)).
  destruct (get_edge md node (relation r)) as [edge|edge ?|]; [| |done];
    rewrite Ht; simpl; rewrite Hcol; simpl; by eexists.
Qed.

Lemma links_loop_spec md recs : forall node t,
  table node = Some t ->
  edge_error_only (links_loop node recs md)
  /\ forall node', links_loop node recs md = Ok node' ->
       node' = with_links (link_columns node') (recursion_to_column node') node
       /\ (forall i, has_key (recursion_to_column node) i ->
                     has_key (recursion_to_column node') i)
       /\ Forall (fun r => has_key (recursion_to_column node') (node_id r)) recs.
Proof.
  induction recs as [|r recs IH]; intros node t Ht; simpl.
  - split; [intros e H; discriminate H|].
    intros node' H. injection H as <-. rewrite with_links_same. auto.
  - destruct (create_link_cases node r md t Ht) as [(e0 & He0 & E)|[col E]];
      rewrite E; simpl.
    + split; [intros e H; by injection H as <- | intros node' H; discriminate H].
    + set (node1 := add_recursive_link_column _ _ node).
      destruct (IH node1 t Ht) as [He Hok]. split; [exact He|].
      intros node' H. destruct (Hok node' H) as (Hf & Hold & Hnew).
      split; [rewrite Hf at 1; reflexivity|]. split.
      * intros i Hi. apply Hold. by apply has_key_set.
      * constructor; [|exact Hnew]. apply Hold.
        eexists. apply dict_get_set_same.
Qed.

Lemma create_links_spec md node t :
  table node = Some t ->
  edge_error_only (_create_links_for_recursions node md)
  /\ forall node', _create_links_for_recursions node md = Ok node' ->
       node' = with_links (link_columns node') (recursion_to_column node') node
       /\ (forall i, has_key (recursion_to_column node) i ->
                     has_key (recursion_to_column node') i)
       /\ Forall (fun r => has_key (recursion_to_column node') (node_id r))
            (recursions node).
Proof.
  intros Ht. unfold _create_links_for_recursions.
  destruct (decide (length (recursions node) = 0%nat)) as [E|_].
  - destruct (recursions node) as [|r l]; [|discriminate E].
    apply (links_loop_spec md [] node t Ht).
  - apply (links_loop_spec md _ node t Ht).
Qed.

Lemma links_loop_returns md recs : forall node t,
  links_resolve md -> table node = Some t -> returns (links_loop node recs md).
Proof.
  induction recs as [|r recs IH]; intros node t Hres Ht; simpl; [by eexists|].
  destruct (create_link_returns node r md t Hres Ht) as [col ->]. simpl.
  by apply (IH _ t).
Qed.

Lemma create_links_returns md node t :
  recursions node = [] \/ links_resolve md ->
  table node = Some t ->
  returns (_create_links_for_recursions node md).
Proof.
  intros [Hnil|Hres] Ht; unfold _create_links_for_recursions.
  - rewrite Hnil. simpl. by eexists.
  - destruct (decide _); [by eexists|]. by eapply links_loop_returns.
Qed.

(** ** Pulling up the children *)

Lemma pull_up_loop_spec md children : forall node f,
  from_clause node = Some f ->
  Forall (fun c => is_Some (from_clause c)) children ->
  exists node' f',
    pull_up_loop node children md = Ok node'
    /\ from_clause node' = Some f'
    /\ first_relation f' = first_relation f
    /\ joined_relations f' = joined_relations f ++ flat_map (child_joins md) children
    /\ selections node' = selections node ++ flat_map selections children
    /\ predicates node' = predicates node ++ flat_map predicates children
    /\ recursions node' = recursions node ++ flat_map recursions children
    /\ header node' = header node
    /\ (forall i, has_key (recursion_to_column node) i ->
                  has_key (recursion_to_column node') i)
    /\ Forall (fun c => forall i, has_key (recursion_to_column c) i ->
                                  has_key (recursion_to_column node') i) children.
Proof.
  induction children as [|c rest IH]; intros node f Hf Hall; simpl.
  - exists node, f. rewrite !app_nil_r. repeat split; auto.
  - apply Forall_cons in Hall as [[g Hg] Hall].
    set (node1 := _pull_up_node_blocks node c).
    assert (H1 : from_clause node1 = Some f) by exact Hf.
    rewrite (join_to_node_Ok node1 c md f g H1 Hg). simpl.
    set (F := join_all (in_optional c) f g (get_on_clause_for_node md c)).
    destruct (IH (set_from_clause F node1) F eq_refl Hall)
      as (node' & f' & Hok & Hf' & Hfirst & Hjoined & Hs & Hp & Hr & Hh & Hold & Hnew).
    exists node', f'. split; [exact Hok|]. split; [exact Hf'|].
    split; [rewrite Hfirst; apply first_relation_join_all|].
    split.
    { rewrite Hjoined. unfold F. rewrite joined_relations_join_all, <- app_assoc.
      unfold child_joins at 2. by rewrite Hg. }
    split; [rewrite Hs; simpl; by rewrite <- app_assoc|].
    split; [rewrite Hp; simpl; by rewrite <- app_assoc|].
    split; [rewrite Hr; simpl; by rewrite <- app_assoc|].
    split; [exact Hh|].
    split.
    { intros i Hi. apply Hold. simpl. by apply has_key_merge_old. }
    constructor; [|exact Hnew].
    intros i Hi. apply Hold. simpl. by apply has_key_merge_new.
Qed.

(** ** The collapse of a tree *)

Lemma for_each_Raise {A B} (f : A -> result B) l e :
  for_each f l = Raise e -> exists a, a ∈ l /\ f a = Raise e.
Proof.
  induction l as [|a l IH]; simpl; [discriminate|].
  destruct (f a) as [b|e'] eqn:E; simpl.
  - destruct (for_each f l) as [bs|e'']; simpl; [discriminate|].
    intros H. injection H as ->. destruct (IH eq_refl) as (a' & Ha & Hf).
    exists a'. split; [by right | exact Hf].
  - intros H. injection H as ->. exists a. split; [by left | exact E].
Qed.

Lemma flat_map_Forall2 {A B C} (R : A -> B -> Prop) (f : A -> list C) (g : B -> list C)
    l l' :
  Forall2 R l l' -> (forall a b, a ∈ l -> R a b -> g b = f a) ->
  flat_map g l' = flat_map f l.
Proof.
  induction 1 as [|a b l l' Hab _ IH]; intros H; simpl; [reflexivity|].
  rewrite (H a b); [|by left|exact Hab]. f_equal. apply IH.
  intros a' b' Ha'. apply H. by right.
Qed.

Lemma Forall2_impl_elem {A B} (R S : A -> B -> Prop) l l' :
  Forall2 R l l' -> (forall a b, a ∈ l -> R a b -> S a b) -> Forall2 S l l'.
Proof.
  induction 1 as [|a b l l' Hab _ IH]; intros H; constructor.
  - apply H; [by left | exact Hab].
  - apply IH. intros a' b' Ha'. apply H. by right.
Qed.

Lemma tree_selections_eq md node :
  tree_selections md node
  = map (selection_set_table (node_alias md node)) (selections node)
    ++ flat_map (tree_selections md) (children_nodes node).
Proof. by destruct node. Qed.

Lemma tree_predicates_eq md node :
  tree_predicates md node
  = map (predicate_set_table (node_alias md node)) (predicates node)
    ++ flat_map (tree_predicates md) (children_nodes node).
Proof. by destruct node. Qed.

Lemma tree_recursions_eq node :
  tree_recursions node
  = recursions node ++ flat_map tree_recursions (children_nodes node).
Proof. by destruct node. Qed.

Lemma collapse_spec md : forall node,
  edge_error_only (_collapse_query_tree md node)
  /\ forall node', _collapse_query_tree md node = Ok node' -> collapsed md node node'.
Proof.
  apply (SqlNode_tree_ind (fun node =>
    edge_error_only (_collapse_query_tree md node)
    /\ forall node', _collapse_query_tree md node = Ok node' -> collapsed md node node')).
  intros node IHc _. rewrite collapse_unfold.
  rewrite Forall_forall in IHc.
  destruct (for_each (_collapse_query_tree md) (children_nodes node))
    as [children|e0] eqn:Hch; simpl.
  2:{ split; [|intros node' H; discriminate H].
      intros e H. injection H as <-.
      apply for_each_Raise in Hch as (c & Hc & Hr).
      by apply (proj1 (IHc c Hc)). }
  apply for_each_Ok in Hch.
  assert (Hcol : Forall2 (collapsed md) (children_nodes node) children).
  { eapply Forall2_impl_elem; [exact Hch|]. intros c c' Hc Hok. by apply (IHc c Hc). }
  change (Alias (get_table md (relation node)) (NodeTable (node_id node)))
    with (node_alias md node).
  set (t := node_alias md node).
  set (node2 := set_predicates _ _).
  destruct (create_links_spec md node2 t eq_refl) as [Herr Hlinks].
  destruct (_create_links_for_recursions node2 md) as [node3|e3]; simpl.
  2:{ split; [exact Herr | intros node' H; discriminate H]. }
  destruct (Hlinks node3 eq_refl) as (Hframe & Hold3 & Hnew3). clear Hlinks Herr.
  assert (Hfrom3 : from_clause node3 = Some t) by (by rewrite Hframe).
  assert (Hsome : Forall (fun c => is_Some (from_clause c)) children).
  { apply Forall_forall. intros c' Hc'.
    apply (list_elem_of_lookup_1) in Hc' as [i Hi].
    destruct (Forall2_lookup_r _ _ _ _ _ Hcol Hi) as (c & _ & Hcc).
    destruct (c_from _ _ _ Hcc) as (g & Hg & _). by exists g. }
  destruct (pull_up_loop_spec md children node3 t Hfrom3 Hsome)
    as (node' & f' & Hok & Hf' & Hfirst & Hjoined & Hs & Hp & Hr & Hh & Hold & Hnew).
  rewrite Hok. split; [intros e H; discriminate H|].
  intros ? H. injection H as <-.
  assert (Hh3 : header node3
                = (node_id node, parent_node node, block node, relation node,
                   in_optional node, children, Some t)) by (by rewrite Hframe).
  rewrite Hh3 in Hh. unfold header in Hh.
  injection Hh as Hid Hpar Hbl Hrel Hopt Hchn Htab.
  assert (Hs3 : selections node3 = map (selection_set_table t) (selections node))
    by (by rewrite Hframe).
  assert (Hp3 : predicates node3 = map (predicate_set_table t) (predicates node))
    by (by rewrite Hframe).
  assert (Hr3 : recursions node3 = recursions node) by (by rewrite Hframe).
  split; try assumption.
  - by rewrite Hchn.
  - rewrite Hs, Hs3, tree_selections_eq. f_equal.
    eapply flat_map_Forall2; [exact Hcol|]. intros c c' _ Hcc. apply Hcc.
  - rewrite Hp, Hp3, tree_predicates_eq. f_equal.
    eapply flat_map_Forall2; [exact Hcol|]. intros c c' _ Hcc. apply Hcc.
  - rewrite Hr, Hr3, tree_recursions_eq. f_equal.
    eapply flat_map_Forall2; [exact Hcol|]. intros c c' _ Hcc. apply Hcc.
  - exists f'. split; [exact Hf'|]. split; [by rewrite Hfirst|].
    by rewrite Hjoined, Hchn.
  - rewrite Hr. apply Forall_app. split.
    + rewrite Hr3. eapply Forall_impl; [exact Hnew3|]. intros r Hr'. by apply Hold.
    + apply Forall_flat_map. rewrite Forall_forall in Hnew. apply Forall_forall.
      intros c' Hc'. apply (list_elem_of_lookup_1) in Hc' as [i Hi].
      destruct (Forall2_lookup_r _ _ _ _ _ Hcol Hi) as (c & _ & Hcc).
      eapply Forall_impl; [exact (c_keys _ _ _ Hcc)|].
      intros r Hr'. apply (Hnew c'); [|exact Hr'].
      by eapply list_elem_of_lookup_2.
Qed.

Lemma for_each_returns {A B} (f : A -> result B) l :
  Forall (fun a => returns (f a)) l -> returns (for_each f l).
Proof.
  induction 1 as [|a l [b Hb] _ [bs Hbs]]; simpl.
  - by eexists.
  - rewrite Hb. simpl. rewrite Hbs. by eexists.
Qed.

Lemma flat_map_nil {A B} (f : A -> list B) l :
  flat_map f l = [] -> Forall (fun a => f a = []) l.
Proof.
  induction l as [|a l IH]; simpl; intros H; constructor.
  - by apply app_eq_nil in H as [? _].
  - apply IH. by apply app_eq_nil in H as [_ ?].
Qed.

Lemma collapse_returns md : forall node,
  tree_recursions node = [] \/ links_resolve md -> returns (_collapse_query_tree md node).
Proof.
  apply (SqlNode_tree_ind (fun node =>
    tree_recursions node = [] \/ links_resolve md ->
    returns (_collapse_query_tree md node))).
  intros node IHc _ Hyp.
  assert (Hrec : recursions node = [] \/ links_resolve md).
  { destruct Hyp as [Hnil|?]; [left | by right].
    rewrite tree_recursions_eq in Hnil. by apply app_eq_nil in Hnil as [? _]. }
  assert (Hsub : Forall (fun c => tree_recursions c = [] \/ links_resolve md)
                   (children_nodes node)).
  { destruct Hyp as [Hnil|?].
    - rewrite tree_recursions_eq in Hnil. apply app_eq_nil in Hnil as [_ Hsub].
      apply flat_map_nil in Hsub. eapply Forall_impl; [exact Hsub|]. intros; by left.
    - apply Forall_forall. intros; by right. }
  rewrite collapse_unfold.
  destruct (for_each_returns (_collapse_query_tree md) (children_nodes node))
    as [children Hch].
  { rewrite Forall_forall in IHc, Hsub. apply Forall_forall.
    intros c Hc. apply (IHc c Hc), (Hsub c Hc). }
  rewrite Hch. simpl. apply for_each_Ok in Hch.
  change (Alias (get_table md (relation node)) (NodeTable (node_id node)))
    with (node_alias md node).
  set (node2 := set_predicates _ _).
  destruct (create_links_returns md node2 (node_alias md node) Hrec eq_refl)
    as [node3 H3].
  rewrite H3. simpl.
  destruct (proj2 (create_links_spec md node2 _ eq_refl) node3 H3) as (Hframe & _).
  destruct (pull_up_loop_spec md children node3 (node_alias md node))
    as (node' & f' & Hok & _).
  { by rewrite Hframe. }
  { apply Forall_forall. intros c' Hc'.
    apply (list_elem_of_lookup_1) in Hc' as [i Hi].
    destruct (Forall2_lookup_r _ _ _ _ _ Hch Hi) as (c & _ & Hcc).
    apply (proj2 (collapse_spec md c)) in Hcc.
    destruct (c_from _ _ _ Hcc) as (g & Hg & _). by exists g. }
  rewrite Hok. by eexists.
Qed.

(** ** The order of the output *)

Lemma tree_aliases_eq node :
  tree_aliases node
  = map alias (selections node) ++ flat_map tree_aliases (children_nodes node).
Proof. by destruct node. Qed.

Lemma recursion_aliases_eq node :
  recursion_aliases node
  = flat_map output_aliases (recursions node)
    ++ flat_map recursion_aliases (children_nodes node).
Proof. by destruct node. Qed.

Lemma flat_map_flat_map {A B C} (f : A -> list B) (g : B -> list C) l :
  flat_map g (flat_map f l) = flat_map (fun a => flat_map g (f a)) l.
Proof.
  induction l as [|a l IH]; simpl; [reflexivity|].
  by rewrite flat_map_app, IH.
Qed.

Lemma flat_map_ext_Forall {A B} (f g : A -> list B) l :
  Forall (fun a => f a = g a) l -> flat_map f l = flat_map g l.
Proof. induction 1 as [|a l Ha _ IH]; simpl; [reflexivity|]. by rewrite Ha, IH. Qed.

Lemma map_flat_map {A B C} (f : A -> list B) (g : B -> C) l :
  map g (flat_map f l) = flat_map (fun a => map g (f a)) l.
Proof.
  induction l as [|a l IH]; simpl; [reflexivity|]. by rewrite map_app, IH.
Qed.

Lemma tree_selections_aliases md : forall node,
  map alias (tree_selections md node) = tree_aliases node.
Proof.
  apply (SqlNode_tree_ind (fun node =>
    map alias (tree_selections md node) = tree_aliases node)).
  intros node IHc _. rewrite tree_selections_eq, tree_aliases_eq, map_app, map_map.
  f_equal. rewrite map_flat_map. by apply flat_map_ext_Forall.
Qed.

Lemma recursion_aliases_tree : forall node,
  recursion_aliases node = flat_map output_aliases (tree_recursions node).
Proof.
  apply (SqlNode_tree_ind (fun node =>
    recursion_aliases node = flat_map output_aliases (tree_recursions node))).
  intros node IHc _.
  rewrite recursion_aliases_eq, tree_recursions_eq, flat_map_app, flat_map_flat_map.
  f_equal. by apply flat_map_ext_Forall.
Qed.

(** ** The steps of [_query_tree_to_query] *)

Lemma attr_Ok {A} (o : option A) a : attr o = Ok a -> o = Some a.
Proof. destruct o; simpl; congruence. Qed.

Lemma relation_arg_Ok o f : relation_arg o = Ok f -> o = Some f.
Proof. destruct o; simpl; congruence. Qed.

Lemma create_recursive_clause_Ok node md c col node' :
  _create_recursive_clause node md c = Ok (col, node') ->
  exists f clause rq,
    from_clause node = Some f
    /\ recursive_clause_queries node md c = Ok clause
    /\ hasattr_cte md (recursion_combinator md) = true
    /\ cte_attribute_call md (recursion_combinator md) (rc_recursive_cte clause)
         (rc_recursive_query clause) = Ok rq
    /\ col = Label (Column rq (rc_sink_col clause)) None
    /\ node' = add_recursive_link_column (RelationKey rq) col
                 (set_from_clause
                    (Join f rq (eq (rc_base_column clause)
                                   (Column rq (rc_source_col clause))) false) node).
Proof.
  unfold _create_recursive_clause. intros H.
  apply bind_Ok in H as (clause & Hq & H).
  destruct (hasattr_cte md (recursion_combinator md)) eqn:Hattr; simpl in H;
    [|discriminate H].
  apply bind_Ok in H as (rq & Hrq & H).
  apply bind_Ok in H as (f & Hf & H). apply attr_Ok in Hf.
  apply bind_Ok in H as (joined & Hj & H). apply c_item_Ok in Hj as [-> _].
  apply bind_Ok in H as (sink & Hs & H). apply c_item_Ok in Hs as [-> _].
  injection H as <- <-.
  exists f, clause, rq. repeat split; assumption.
Qed.

Lemma create_query_Ok node columns predicates q :
  _create_query node columns predicates = Ok q ->
  exists f, from_clause node = Some f
            /\ q = select columns true (Some f) (and_ <$> predicates).
Proof.
  unfold _create_query. intros H. apply bind_Ok in H as (f & Hf & H).
  apply relation_arg_Ok in Hf. exists f. split; [exact Hf|].
  destruct predicates; injection H as <-; reflexivity.
Qed.

Lemma join_to_recursive_node_Ok md node in_col r out node' :
  _join_to_recursive_node md node in_col r out = Ok node' ->
  exists f g onclause,
    from_clause node = Some f /\ from_clause r = Some g
    /\ node' = set_from_clause (Join f g onclause false) node.
Proof.
  unfold _join_to_recursive_node. intros H.
  apply bind_Ok in H as (t & _ & H). apply bind_Ok in H as (n_in & _ & H).
  apply bind_Ok in H as (col_in & _ & H).
  apply bind_Ok in H as (rt & _ & H). apply bind_Ok in H as (o & _ & H).
  apply bind_Ok in H as (n_out & _ & H). apply bind_Ok in H as (col_out & _ & H).
  apply bind_Ok in H as (f & Hf & H).
  apply bind_Ok in H as (g & Hg & H). injection H as <-.
  apply attr_Ok in Hf. apply relation_arg_Ok in Hg.
  eexists f, g, _. repeat split; [exact Hf | exact Hg].
Qed.

Lemma traverse_loop_spec md call recs : forall node acc node' recs' acc',
  traverse_loop md call node recs acc = Ok (node', recs', acc') ->
  Forall2 (fun r r' => exists c res, call r (Some c) = Ok (res, r')) recs recs'
  /\ acc' = acc ++ flat_map selections recs'
  /\ node' = with_from_clause (from_clause node') node
  /\ forall f, from_clause node = Some f ->
       exists f', from_clause node' = Some f'
                  /\ first_relation f' = first_relation f
                  /\ map Some (joined_relations f')
                     = map Some (joined_relations f) ++ map from_clause recs'.
Proof.
  induction recs as [|r rest IH]; intros node acc node' recs' acc' H; simpl in H.
  - injection H as <- <- <-. split; [constructor|]. split; [by rewrite app_nil_r|].
    split; [by rewrite with_from_clause_same|].
    intros f Hf. exists f. by rewrite app_nil_r.
  - apply bind_Ok in H as (in_col & _ & H).
    apply bind_Ok in H as ([res r1] & Hcall & H).
    apply bind_Ok in H as (out & _ & H).
    apply bind_Ok in H as (n1 & Hjoin & H).
    apply bind_Ok in H as ([[n2 rest'] acc2] & Hloop & H).
    injection H as <- <- <-.
    apply join_to_recursive_node_Ok in Hjoin as (f0 & g & onclause & Hf0 & Hg & ->).
    apply IH in Hloop as (Hall & Hacc & Hframe & Hfrom).
    split; [constructor; [by exists in_col, res | exact Hall]|].
    split; [rewrite Hacc; simpl; by rewrite <- app_assoc|].
    split; [rewrite Hframe at 1; reflexivity|].
    intros f Hf. rewrite Hf in Hf0. injection Hf0 as <-.
    destruct (Hfrom _ eq_refl) as (f' & Hf' & Hfirst & Hjoined).
    exists f'. split; [exact Hf'|]. split; [exact Hfirst|].
    rewrite Hjoined. simpl. rewrite map_app, <- app_assoc. simpl. by rewrite Hg.
Qed.

Lemma recurse_step_frame md (nc : SqlNode) c out n1 :
  match block nc with
  | Recurse _ _ _ =>
      '(column, node) ← _create_recursive_clause nc md c; Ok (Some column, node)
  | _ => Ok (None, nc)
  end = Ok (out, n1) ->
  node_id n1 = node_id nc /\ parent_node n1 = parent_node nc
  /\ selections n1 = selections nc /\ predicates n1 = predicates nc
  /\ recursions n1 = recursions nc
  /\ (forall i, has_key (recursion_to_column nc) i -> has_key (recursion_to_column n1) i)
  /\ (is_Some (table nc) -> is_Some (table n1)).
Proof.
  intros H.
  assert (Hsame : n1 = nc \/ exists col, _create_recursive_clause nc md c = Ok (col, n1)).
  { destruct (block nc); try (injection H as _ <-; by left).
    apply bind_Ok in H as ([col n] & Hc & H). injection H as _ <-. right. by exists col. }
  clear H. destruct Hsame as [->|[col H]]; [by repeat split|].
  apply create_recursive_clause_Ok in H as (f & clause & rq & _ & _ & _ & _ & _ & ->).
  repeat split; try reflexivity.
  - intros i Hi. simpl. by apply has_key_set.
  - intros Ht. exact Ht.
Qed.

Lemma query_tree_spec md fuel : forall node c returned node',
  _query_tree_to_query fuel md node c = Ok (returned, node') ->
  emitted md node returned node'.
Proof.
  induction fuel as [|fuel IH]; intros node c returned node' H; [discriminate H|].
  simpl in H.
  apply bind_Ok in H as (nc & Hc & H).
  apply (proj2 (collapse_spec md node)) in Hc.
  apply bind_Ok in H as ([out n1] & Hstep & H).
  apply recurse_step_frame in Hstep as (Hid1 & Hpar1 & Hs1 & Hp1 & Hr1 & _ & _).
  apply bind_Ok in H as (q & Hq & H).
  apply create_query_Ok in Hq as (f1 & Hf1 & Hq). simpl in Hq.
  apply bind_Ok in H as (n3 & Htr & H).
  unfold _traverse_recursions in Htr.
  apply bind_Ok in Htr as ([[n2 recs'] acc'] & Hloop & Htr). injection Htr as <-.
  apply traverse_loop_spec in Hloop as (Hall & Hacc & Hframe & Hfrom).
  simpl in Hacc. subst acc'.
  destruct (Hfrom _ eq_refl) as (f' & Hf' & Hfirst & Hjoined). clear Hfrom.
  simpl in Hfirst, Hjoined.
  assert (Hparent : parent_node n2 = parent_node node).
  { rewrite Hframe. simpl. rewrite Hpar1. apply Hc. }
  assert (Hrecs : Forall2 (fun r r' => exists res, emitted md r res r')
                    (tree_recursions node) recs').
  { rewrite <- (c_recursions _ _ _ Hc), <- Hr1.
    eapply Forall2_impl; [exact Hall|]. intros r r' (c' & res & Hcall).
    exists res. by eapply IH. }
  assert (Hret : match parent_node node with
                 | None =>
                     returned
                     = Statement
                         (select (map (get_column_for_block md)
                                    (selections n2 ++ flat_map selections recs'))
                            true (from_clause n2) None)
                 | Some _ => exists out, returned = OutColumn out
                 end /\ node' = set_selections (selections n2 ++ flat_map selections recs')
                                  (set_recursions recs' n2)).
  { simpl in H. rewrite Hparent in H. destruct (parent_node node).
    - injection H as <- <-. split; [by eexists | reflexivity].
    - apply bind_Ok in H as (final & Hfin & H). injection H as <- <-.
      apply create_query_Ok in Hfin as (f2 & Hf2 & ->). simpl in Hf2.
      split; [|reflexivity]. simpl. by rewrite Hf2. }
  destruct Hret as [Hret ->].
  assert (Hsel2 : selections n2
                  = map rename (map (selection_set_table (CTE q false)) (selections n1)))
    by (by rewrite Hframe).
  split; simpl.
  - rewrite Hframe. simpl. rewrite Hid1. apply Hc.
  - exact Hparent.
  - rewrite map_app, Hsel2, !map_map. unfold output_aliases. f_equal.
    + rewrite Hs1, (c_selections _ _ _ Hc), <- (tree_selections_aliases md).
      by apply map_ext.
    + rewrite recursion_aliases_tree, map_flat_map.
      eapply flat_map_Forall2; [exact Hrecs|].
      intros r r' _ [res Hr]. apply Hr.
  - apply Forall_app. split.
    + rewrite Hsel2. apply Forall_forall. intros s Hs.
      apply list_elem_of_fmap in Hs as (s1 & -> & Hs).
      apply list_elem_of_fmap in Hs as (s0 & -> & _).
      split; [reflexivity | by eexists].
    + apply Forall_flat_map. apply Forall_forall. intros r' Hr'.
      apply (list_elem_of_lookup_1) in Hr' as [i Hi].
      destruct (Forall2_lookup_r _ _ _ _ _ Hrecs Hi) as (r & _ & res & Hr).
      apply Hr.
  - symmetry. eapply Forall2_length, Hrecs.
  - exists q, f'. split; [by rewrite Hframe|]. split; [exact Hf'|].
    split; [exact Hfirst|]. split; [exact Hjoined|].
    eexists _, f1, n1. rewrite Hq, Hp1, (c_predicates _ _ _ Hc). reflexivity.
  - exact Hret.
Qed.

(** ** The errors of the emitter *)

Lemma raises_in_Ok {A} P (a : A) : raises_in P (Ok a).
Proof. intros e H. discriminate H. Qed.

Lemma raises_in_Raise {A} (P : Exception -> Prop) e : P e -> raises_in (A:=A) P (Raise e).
Proof. intros H e' E. by injection E as <-. Qed.

Lemma raises_in_bind {A B} P (r : result A) (k : A -> result B) :
  raises_in P r -> (forall a, r = Ok a -> raises_in P (k a)) -> raises_in P (r ≫= k).
Proof.
  intros Hr Hk e H. destruct r as [a|e']; simpl in H.
  - by apply (Hk a eq_refl).
  - injection H as <-. by apply Hr.
Qed.

Lemma raises_in_attr {A} (P : Exception -> Prop) (o : option A) :
  P AttributeError -> raises_in P (attr o).
Proof. intros H. destruct o; [apply raises_in_Ok | by apply raises_in_Raise]. Qed.

Lemma raises_in_direction_of (P : Exception -> Prop) b :
  P AttributeError -> raises_in P (direction_of b).
Proof. intros H. destruct b; (apply raises_in_Ok || by apply raises_in_Raise). Qed.

Lemma raises_in_depth_of (P : Exception -> Prop) b :
  P AttributeError -> raises_in P (depth_of b).
Proof. intros H. destruct b; (apply raises_in_Ok || by apply raises_in_Raise). Qed.

Lemma raises_in_c_item (P : Exception -> Prop) md relation name :
  (forall name, P (KeyError (MissingColumn name))) -> raises_in P (c_item md relation name).
Proof.
  intros H. unfold c_item.
  destruct (has_column md relation name); [apply raises_in_Ok | by apply raises_in_Raise].
Qed.

Lemma raises_in_c_attribute (P : Exception -> Prop) md relation name :
  P AttributeError -> raises_in P (c_attribute md relation name).
Proof.
  intros H. unfold c_attribute.
  destruct (has_column md relation name); [apply raises_in_Ok | by apply raises_in_Raise].
Qed.

Lemma raises_in_impl {A} (P Q : Exception -> Prop) (r : result A) :
  (forall e, P e -> Q e) -> raises_in P r -> raises_in Q r.
Proof. intros H Hr e He. by apply H, Hr. Qed.

(** A chain of reads and lookups raises what they raise. *)
Ltac raises_chain Hattr Hkey :=
  repeat first
    [ apply raises_in_Ok
    | apply raises_in_bind;
      [ first [ apply raises_in_attr, Hattr
              | apply raises_in_direction_of, Hattr
              | apply raises_in_depth_of, Hattr
              | apply raises_in_c_attribute, Hattr
              | apply raises_in_c_item, Hkey ]
      | intros ? _; simpl ] ].

Lemma recursive_edge_raises (P : Exception -> Prop) md node :
  P AttributeError ->
  (forall name, P (KeyError (MissingColumn name))) ->
  (get_edge md node (relation node) = OtherEdge -> P (AssertionError UnsupportedEdgeShape)) ->
  raises_in P (recursive_edge node md).
Proof.
  intros Hattr Hkey Hedge. unfold recursive_edge.
  destruct (get_edge md node (relation node));
    [| |by apply raises_in_Raise, Hedge];
    (apply raises_in_bind; [apply raises_in_attr, Hattr|]; intros t _;
     apply raises_in_bind; [apply raises_in_c_item, Hkey|]; intros base _;
     apply raises_in_bind; [apply raises_in_direction_of, Hattr|]; intros direction _;
     destruct (decide (direction = "in")); apply raises_in_Ok).
Qed.

Lemma recursive_clause_queries_raises (P : Exception -> Prop) md node c :
  P AttributeError ->
  (forall name, P (KeyError (MissingColumn name))) ->
  (get_edge md node (relation node) = OtherEdge -> P (AssertionError UnsupportedEdgeShape)) ->
  raises_in P (recursive_clause_queries node md c).
Proof.
  intros Hattr Hkey Hedge. unfold recursive_clause_queries.
  apply raises_in_bind; [by apply recursive_edge_raises|].
  intros [[[[source sink] base_col] base_column] recursive_table] _. simpl.
  raises_chain Hattr Hkey.
Qed.

Lemma recursive_edge_OtherEdge md node :
  get_edge md node (relation node) = OtherEdge ->
  recursive_edge node md = Raise (AssertionError UnsupportedEdgeShape).
Proof. intros H. unfold recursive_edge. by rewrite H. Qed.

Lemma create_recursive_clause_after md node c clause :
  recursive_clause_queries node md c = Ok clause ->
  hasattr_cte md (recursion_combinator md) = true ->
  forall e,
    _create_recursive_clause node md c = Raise e ->
    cte_attribute_call md (recursion_combinator md) (rc_recursive_cte clause)
      (rc_recursive_query clause) = Raise e
    \/ (returns (cte_attribute_call md (recursion_combinator md) (rc_recursive_cte clause)
                   (rc_recursive_query clause))
        /\ lookup_error e).
Proof.
  intros Hq Hattr e. unfold _create_recursive_clause. rewrite Hq. simpl. rewrite Hattr. simpl.
  destruct (cte_attribute_call md (recursion_combinator md) (rc_recursive_cte clause)
              (rc_recursive_query clause)) as [rq|e'] eqn:Hcall; simpl.
  - intros H. right. split; [by eexists|]. revert e H.
    change (raises_in lookup_error
              (node_from ← attr (from_clause node);
               joined_column ← c_item md rq (rc_source_col clause);
               sink_column ← c_item md rq (rc_sink_col clause);
               Ok (Label sink_column None,
                   add_recursive_link_column (RelationKey rq) (Label sink_column None)
                     (set_from_clause
                        (Join node_from rq (eq (rc_base_column clause) joined_column) false)
                        node)))).
    assert (Ha : lookup_error AttributeError) by (by left).
    assert (Hk : forall name, lookup_error (KeyError (MissingColumn name)))
      by (intros name; right; by eexists).
    raises_chain Ha Hk.
  - intros H. injection H as <-. by left.
Qed.

Lemma create_recursive_clause_raises md node c :
  raises_in (emitter_error md) (_create_recursive_clause node md c).
Proof.
  assert (Ha : emitter_error md AttributeError) by (by left).
  assert (Hk : forall name, emitter_error md (KeyError (MissingColumn name)))
    by (intros name; right; right; left; by eexists).
  destruct (recursive_clause_queries node md c) as [clause|e0] eqn:Hq.
  2:{ unfold _create_recursive_clause. rewrite Hq. simpl.
      apply raises_in_Raise.
      apply (recursive_clause_queries_raises (emitter_error md) md node c Ha Hk); [|exact Hq].
      intros _. right. by left. }
  destruct (hasattr_cte md (recursion_combinator md)) eqn:Hattr.
  - intros e He.
    destruct (create_recursive_clause_after md node c clause Hq Hattr e He)
      as [Hcall|[_ [->|[name ->]]]]; [|exact Ha|apply Hk].
    do 4 right. by eexists _, _.
  - unfold _create_recursive_clause. rewrite Hq. simpl. rewrite Hattr. simpl.
    apply raises_in_Raise. do 3 right. by left.
Qed.

Lemma create_query_returns node columns predicates f :
  from_clause node = Some f -> returns (_create_query node columns predicates).
Proof.
  intros Hf. unfold _create_query. rewrite Hf. simpl.
  destruct predicates; by eexists.
Qed.

Lemma join_to_recursive_node_raises md node in_col r out g :
  from_clause r = Some g ->
  raises_in (emitter_error md) (_join_to_recursive_node md node in_col r out).
Proof.
  intros Hg. unfold _join_to_recursive_node. rewrite Hg.
  assert (Ha : emitter_error md AttributeError) by (by left).
  assert (Hk : forall name, emitter_error md (KeyError (MissingColumn name)))
    by (intros name; right; right; left; by eexists).
  raises_chain Ha Hk.
Qed.

Lemma traverse_loop_raises md (P : Exception -> Prop) call recs :
  (forall e, emitter_error md e -> P e) ->
  Forall (fun r => forall c, raises_in P (call r c)) recs ->
  (forall r c res r', call r c = Ok (res, r') -> is_Some (from_clause r')) ->
  forall node acc,
    Forall (fun r => has_key (recursion_to_column node) (node_id r)) recs ->
    raises_in P (traverse_loop md call node recs acc).
Proof.
  intros HP Hcall Hfrom. induction Hcall as [|r rest Hr _ IH]; intros node acc Hkeys.
  - apply raises_in_Ok.
  - apply Forall_cons in Hkeys as [[in_col Hk] Hkeys]. simpl. rewrite Hk. simpl.
    apply raises_in_bind; [apply Hr|]. intros [res r1] Hres. simpl.
    apply raises_in_bind.
    { destruct res; [apply raises_in_Raise, HP; by left | apply raises_in_Ok]. }
    intros out _. destruct (Hfrom _ _ _ _ Hres) as [g Hg].
    apply raises_in_bind.
    { intros e He.
      apply HP, (join_to_recursive_node_raises md node in_col r1 out g Hg e He). }
    intros n1 Hjoin.
    apply join_to_recursive_node_Ok in Hjoin as (f0 & g0 & onclause & _ & _ & ->).
    apply raises_in_bind; [by apply IH|].
    intros [[n2 rest'] acc2] _. apply raises_in_Ok.
Qed.

Lemma raises_in_returns {A} P (r : result A) : returns r -> raises_in P r.
Proof. intros [a ->]. apply raises_in_Ok. Qed.

Lemma recurse_step_from md (nc : SqlNode) c out n1 :
  match block nc with
  | Recurse _ _ _ =>
      '(column, node) ← _create_recursive_clause nc md c; Ok (Some column, node)
  | _ => Ok (None, nc)
  end = Ok (out, n1) ->
  is_Some (from_clause nc) -> is_Some (from_clause n1).
Proof.
  intros H Hf.
  assert (Hsame : n1 = nc \/ exists col, _create_recursive_clause nc md c = Ok (col, n1)).
  { destruct (block nc); try (injection H as _ <-; by left).
    apply bind_Ok in H as ([col n] & Hc & H). injection H as _ <-. right. by exists col. }
  clear H. destruct Hsame as [->|[col H]]; [exact Hf|].
  apply create_recursive_clause_Ok in H as (f & clause & rq & _ & _ & _ & _ & _ & ->).
  by eexists.
Qed.

Lemma recursion_depth_eq node :
  recursion_depth node
  = max (list_max (map recursion_depth (children_nodes node)))
        (list_max (map (fun r => S (recursion_depth r)) (recursions node))).
Proof. by destruct node. Qed.

Lemma list_max_elem {A} (f : A -> nat) l a :
  a ∈ l -> (f a <= list_max (map f l))%nat.
Proof.
  induction 1 as [a l|a b l _ IH]; simpl; lia.
Qed.

Lemma elem_of_flat_map {A B} (f : A -> list B) l b :
  b ∈ flat_map f l -> exists a, a ∈ l /\ b ∈ f a.
Proof.
  induction l as [|a l IH]; simpl; intros H.
  - by apply not_elem_of_nil in H.
  - apply elem_of_app in H as [H|H].
    + exists a. split; [by left | exact H].
    + destruct (IH H) as (a' & Ha' & Hb). exists a'. split; [by right | exact Hb].
Qed.

Lemma recursion_depth_tree_recursions : forall node r,
  r ∈ tree_recursions node -> (recursion_depth r < recursion_depth node)%nat.
Proof.
  apply (SqlNode_tree_ind (fun node =>
    forall r, r ∈ tree_recursions node -> (recursion_depth r < recursion_depth node)%nat)).
  intros node IHc _ r Hr. rewrite tree_recursions_eq in Hr.
  rewrite (recursion_depth_eq node).
  apply elem_of_app in Hr as [Hr|Hr].
  - apply (list_max_elem (fun r => S (recursion_depth r))) in Hr. lia.
  - apply elem_of_flat_map in Hr as (c & Hc & Hr). rewrite Forall_forall in IHc.
    specialize (IHc c Hc r Hr). apply (list_max_elem recursion_depth) in Hc. lia.
Qed.

Lemma query_tree_raises md fuel : forall node c,
  raises_in (fun e => emitter_error md e
                      \/ (e = RecursionError /\ (fuel <= recursion_depth node)%nat))
    (_query_tree_to_query fuel md node c).
Proof.
  induction fuel as [|fuel IH]; intros node c.
  { apply raises_in_Raise. right. split; [reflexivity | lia]. }
  simpl. apply raises_in_bind.
  { intros e He. left. destruct (proj1 (collapse_spec md node) e He) as [->|Hkey].
    - right. by left.
    - right. right. by left. }
  intros nc Hc. apply (proj2 (collapse_spec md node)) in Hc.
  apply raises_in_bind.
  { destruct (block nc); try apply raises_in_Ok.
    apply raises_in_bind; [|intros [col n] _; apply raises_in_Ok].
    intros e He. left. by eapply create_recursive_clause_raises. }
  intros [out n1] Hstep.
  pose proof (recurse_step_from _ _ _ _ _ Hstep) as Hfrom1.
  apply recurse_step_frame in Hstep as (_ & Hpar1 & _ & _ & Hr1 & Hkeys1 & _).
  destruct Hfrom1 as [f1 Hf1].
  { destruct (c_from _ _ _ Hc) as (f & Hf & _). by exists f. }
  apply raises_in_bind.
  { apply raises_in_returns. by eapply create_query_returns. }
  intros q _. apply raises_in_bind.
  { unfold _traverse_recursions.
    apply raises_in_bind; [|intros [[? ?] ?] _; apply raises_in_Ok].
    apply (traverse_loop_raises md).
    - intros e He. by left.
    - simpl. rewrite Hr1, (c_recursions _ _ _ Hc). apply Forall_forall.
      intros r Hr c' e He. apply recursion_depth_tree_recursions in Hr.
      destruct (IH r c' e He) as [Hem|[-> Hlt]]; [by left|].
      right. split; [reflexivity | lia].
    - intros r c' res r' Hcall. apply query_tree_spec in Hcall.
      destruct (e_from _ _ _ _ Hcall) as (base & f' & _ & Hf' & _). by exists f'.
    - simpl. rewrite Hr1. eapply Forall_impl; [exact (c_keys _ _ _ Hc)|].
      intros r Hk. by apply Hkeys1. }
  intros n3 Htr. unfold _traverse_recursions in Htr.
  apply bind_Ok in Htr as ([[n2 recs'] acc'] & Hloop & Htr). injection Htr as <-.
  apply traverse_loop_spec in Hloop as (_ & _ & _ & Hfrom).
  destruct (Hfrom _ eq_refl) as (f' & Hf' & _).
  simpl. destruct (parent_node n2); [apply raises_in_Ok|].
  apply raises_in_bind; [|intros; apply raises_in_Ok].
  apply raises_in_returns. unfold _create_final_query.
  by eapply create_query_returns.
Qed.

(** * The SQL emitter: properties *)

Import sqlalchemy emit_sql.

(** [_join_to_node] joins the from-clause of the child to the one of the
    node once for every on-clause the metadata gives for the child, every
    time with a left outer join when the child is optional and with an inner
    join when it is not, and changes nothing else of the node. For two
    children with the same from-clause and the same on-clauses, the second
    result is the first one with the kind of these joins set to the optional
    flag of the second child: they differ in the join kind and in nothing
    else. *)
Theorem join_kind_follows_optional node child md f g :
  from_clause node = Some f ->
  from_clause child = Some g ->
  let onclauses := get_on_clause_for_node md child in
  _join_to_node node child md
  = Ok (set_from_clause (join_all (in_optional child) f g onclauses) node)
  /\ forall child',
       from_clause child' = Some g ->
       get_on_clause_for_node md child' = onclauses ->
       _join_to_node node child' md
       = Ok (set_from_clause
               (set_join_kind (length onclauses) (in_optional child')
                  (join_all (in_optional child) f g onclauses)) node).
Proof.
  intros Hf Hg onclauses. split.
  - by apply join_to_node_Ok.
  - intros child' Hg' Hon.
    rewrite (join_to_node_Ok node child' md f g Hf Hg'), Hon.
    by rewrite set_join_kind_join_all.
Qed.

Lemma join_kind_follows_optional_witness :
  let t := Alias (Table "Animal") (NodeTable 0) in
  let node := set_from_clause t (set_table t (example_tree true)) in
  let child := set_from_clause t (set_table t (example_child true)) in
  _join_to_node node child (example_metadata "union" parent_edge)
  = Ok (set_from_clause
          (Join t t (eq (Column (Table "Animal") "uuid") (Column t "parent")) true) node).
Proof.
  intros t node child.
  exact (proj1 (join_kind_follows_optional node child
                  (example_metadata "union" parent_edge) t t eq_refl eq_refl)).
Defined.

(** [_collapse_query_tree] flattens a tree in the order of its input: the
    selections, the predicates and the recursions of the collapsed node are
    those of the node followed by those of the subtree of every child, in
    the order of the children. Every selection and predicate refers to the
    aliased table of the node it came from: the object that the call of
    [alias()] at line 148 made for that node, which no other node shares,
    even one over the same relation. The table of the collapsed node is its
    own alias, its children are the children collapsed, and its from-clause
    is its alias joined to the from-clauses of the collapsed children, in
    their order, once for every on-clause of the child. *)
Theorem collapse_flattens_in_order md node node' :
  _collapse_query_tree md node = Ok node' ->
  selections node' = tree_selections md node
  /\ predicates node' = tree_predicates md node
  /\ recursions node' = tree_recursions node
  /\ table node' = Some (Alias (get_table md (relation node)) (NodeTable (node_id node)))
  /\ Forall2 (fun child child' => _collapse_query_tree md child = Ok child')
       (children_nodes node) (children_nodes node')
  /\ exists f,
       from_clause node' = Some f
       /\ first_relation f = Alias (get_table md (relation node)) (NodeTable (node_id node))
       /\ joined_relations f = flat_map (child_joins md) (children_nodes node').
Proof.
  intros H. apply (proj2 (collapse_spec md node)) in H.
  destruct H. auto 10.
Qed.

Lemma collapse_flattens_in_order_witness :
  let node' := or_else (_collapse_query_tree two_clause_metadata example_family)
                 example_family in
  map alias (selections node')
  = ["animal_name"; "child_name"; "child_species"; "parent_name"]
  /\ map selection_table (selections node')
     = [ Some (Alias (Table "Animal") (NodeTable 0));
         Some (Alias (Table "Animal") (NodeTable 1));
         Some (Alias (Table "Species") (NodeTable 3));
         Some (Alias (Table "Animal") (NodeTable 2)) ]
  /\ exists f,
       from_clause node' = Some f
       /\ length (joined_relations f) = 3%nat.
Proof.
  intros node'.
  destruct (collapse_flattens_in_order two_clause_metadata example_family node')
    as (Hs & _ & _ & _ & _ & f & Hf & _ & Hj).
  - vm_compute. reflexivity.
  - split; [|split].
    + rewrite Hs. vm_compute. reflexivity.
    + rewrite Hs. vm_compute. reflexivity.
    + exists f. split; [exact Hf|]. rewrite Hj. vm_compute. reflexivity.
Defined.



(** The errors of [_create_recursive_clause], in the order in which the code
    reaches them. An edge that is neither a [BasicEdge] nor a [MultiEdge]
    raises the [AssertionError] of line 83, whatever the combinator is. With
    an edge of a known kind, building the anchor query and the recursive
    query raises nothing but an [AttributeError] or the [KeyError] of a
    column that a relation does not have. The combinator is looked at last:
    once both queries are built, a CTE without an attribute of the name of
    the combinator raises the [AssertionError] of line 132; with the
    attribute, the call raises what calling it raises (a [TypeError] for an
    attribute that is no method), and when the call returns, nothing but an
    [AttributeError] or the [KeyError] of a column that the combined
    relation does not have. *)
Theorem recursive_clause_errors node md c :
  let combinator := recursion_combinator md in
  (get_edge md node (relation node) = OtherEdge ->
   _create_recursive_clause node md c = Raise (AssertionError UnsupportedEdgeShape))
  /\ (forall e,
        recursive_clause_queries node md c = Raise e ->
        _create_recursive_clause node md c = Raise e
        /\ ((get_edge md node (relation node) = OtherEdge
             /\ e = AssertionError UnsupportedEdgeShape)
            \/ (get_edge md node (relation node) <> OtherEdge /\ lookup_error e)))
  /\ (forall clause,
        recursive_clause_queries node md c = Ok clause ->
        let call := cte_attribute_call md combinator (rc_recursive_cte clause)
                      (rc_recursive_query clause) in
        (hasattr_cte md combinator = false ->
         _create_recursive_clause node md c
         = Raise (AssertionError (UnsupportedCombinator combinator)))
        /\ (hasattr_cte md combinator = true ->
            forall e, _create_recursive_clause node md c = Raise e ->
                      call = Raise e \/ (returns call /\ lookup_error e))).
Proof.
  intros combinator. split; [|split].
  - intros He. unfold _create_recursive_clause, recursive_clause_queries.
    by rewrite (recursive_edge_OtherEdge md node He).
  - intros e Hq. split.
    { unfold _create_recursive_clause. by rewrite Hq. }
    destruct (get_edge md node (relation node)) eqn:He.
    3:{ left. split; [reflexivity|].
        unfold recursive_clause_queries in Hq.
        rewrite (recursive_edge_OtherEdge md node He) in Hq. by injection Hq as <-. }
    all: right; split; [discriminate|];
      apply (recursive_clause_queries_raises lookup_error md node c);
      [by left | intros name; right; by eexists | rewrite He; discriminate | exact Hq].
  - intros clause Hq call. split.
    + intros Hattr. unfold _create_recursive_clause. rewrite Hq. simpl.
      fold combinator. by rewrite Hattr.
    + intros Hattr e. by apply create_recursive_clause_after.
Qed.

Lemma recursive_clause_errors_witness :
  let t := Alias (Table "Animal") (NodeTable 1) in
  let node := set_from_clause t (set_table t (example_recursion 3)) in
  let md := example_metadata "intersect" parent_edge in
  _create_recursive_clause node md (Some (Column t "uuid"))
  = Raise (AssertionError (UnsupportedCombinator "intersect")).
Proof.
  intros t node md.
  destruct (recursive_clause_errors node md (Some (Column t "uuid"))) as (_ & _ & H).
  destruct (recursive_clause_queries node md (Some (Column t "uuid")))
    as [clause|e] eqn:E; [|vm_compute in E; discriminate E].
  apply (H clause eq_refl). reflexivity.
Defined.

(** A call of [_query_tree_to_query] that returns gives a statement for a
    node without parent and for no other node. The statement selects the
    selections the node has in the end, distinct, from the from-clause the
    node has in the end, and has no where-clause: the predicates of the
    whole tree are the where-clause of the base query, which the from-clause
    starts with, wrapped as a CTE. *)
Theorem only_root_makes_statement fuel md node c returned node' :
  _query_tree_to_query fuel md node c = Ok (returned, node') ->
  (parent_node node = None <-> exists q, returned = Statement q)
  /\ forall q, returned = Statement q ->
       q = select (map (get_column_for_block md) (selections node')) true
             (from_clause node') None
       /\ exists from base columns base_from n,
            from_clause node' = Some from
            /\ first_relation from = CTE base false
            /\ base = select columns true (Some base_from)
                        (Some (and_ (map (get_predicate_condition md n)
                                       (tree_predicates md node)))).
Proof.
  intros H. apply query_tree_spec in H.
  destruct H as [_ _ _ _ _ (base & f' & _ & Hf' & Hfirst & _ & cols & fb & n & Hb) Hret].
  destruct (parent_node node) as [p|].
  - destruct Hret as [out ->]. split.
    + split; [discriminate | intros [q Hq]; discriminate Hq].
    + intros q Hq. discriminate Hq.
  - subst returned. split.
    + split; [by eexists | reflexivity].
    + intros q Hq. injection Hq as <-. split; [reflexivity|].
      by exists f', base, cols, fb, n.
Qed.

Lemma only_root_makes_statement_witness :
  let md := example_metadata "union" parent_edge in
  let run := _query_tree_to_query 2 md (example_recursive_tree 3) None in
  exists q, (or_else run (OutColumn None, example_recursive_tree 3)).1 = Statement q.
Proof.
  intros md run.
  apply (only_root_makes_statement 2 md (example_recursive_tree 3) None
           (or_else run (OutColumn None, example_recursive_tree 3)).1
           (or_else run (OutColumn None, example_recursive_tree 3)).2).
  - vm_compute. reflexivity.
  - reflexivity.
Defined.

(** The output mirrors the order of the input. In the node a call of
    [_query_tree_to_query] leaves, the selections are named, in this order,
    after the selections of the node, those of the subtree of every child in
    the order of the children, then those of every recursion hanging off the
    tree, in the order of the tree, each followed by its own recursions.
    Every one of them is renamed and refers to a CTE, the table of the node
    is the CTE of its base query, and the from-clause is that CTE joined to
    the from-clauses of the recursions, in their order. *)
Theorem output_in_input_order fuel md node c returned node' :
  _query_tree_to_query fuel md node c = Ok (returned, node') ->
  map alias (selections node') = output_aliases node
  /\ Forall wrapped (selections node')
  /\ length (recursions node') = length (tree_recursions node)
  /\ exists from base,
       from_clause node' = Some from
       /\ table node' = Some (CTE base false)
       /\ first_relation from = CTE base false
       /\ map Some (joined_relations from) = map from_clause (recursions node').
Proof.
  intros H. apply query_tree_spec in H.
  destruct H as [_ _ Ha Hw Hr (base & f' & Ht' & Hf' & Hfirst & Hj & _) _].
  repeat split; try assumption. by exists f', base.
Qed.

Lemma output_in_input_order_witness :
  let md := example_metadata "union" parent_edge in
  let run := _query_tree_to_query 2 md (example_recursive_tree 3) None in
  map alias (selections (or_else run (OutColumn None, example_recursive_tree 3)).2)
  = ["animal_name"; "descendant_name"].
Proof.
  intros md run.
  rewrite (proj1 (output_in_input_order 2 md (example_recursive_tree 3) None
                    (or_else run (OutColumn None, example_recursive_tree 3)).1
                    (or_else run (OutColumn None, example_recursive_tree 3)).2
                    ltac:(vm_compute; reflexivity))).
  reflexivity.
Defined.

(** The errors of the emitter. What [emit_code_from_ir] raises is one of:
    an [AttributeError]; the [AssertionError] for an edge of no known kind;
    the [KeyError] of a column that a relation does not have; the
    [AssertionError] for a combinator that the CTE does not have; and what
    calling the combinator on a CTE raises. So, unless that call raises it,
    no key is looked up in [recursion_to_column] that is not there and no
    from-clause is used before it is set. The calls of
    [_query_tree_to_query] nest one deeper than the recursions of the tree:
    a stack deeper than the recursions nest is never exhausted. *)
Theorem emitter_errors fuel md tree e :
  emit_code_from_ir fuel tree md = Raise e ->
  e = AttributeError
  \/ e = AssertionError UnsupportedEdgeShape
  \/ (exists name, e = KeyError (MissingColumn name))
  \/ e = AssertionError (UnsupportedCombinator (recursion_combinator md))
  \/ (exists cte query, cte_attribute_call md (recursion_combinator md) cte query = Raise e)
  \/ (e = RecursionError /\ (fuel <= recursion_depth tree)%nat).
Proof.
  unfold emit_code_from_ir. intros H.
  destruct (_query_tree_to_query fuel md tree None) as [[returned node']|e'] eqn:E;
    [discriminate H|].
  injection H as <-.
  destruct (query_tree_raises md fuel tree None e' E) as [[?|[?|[?|[?|?]]]]|?]; auto 10.
Qed.

Lemma emitter_errors_witness :
  let md := example_metadata "name" parent_edge in
  emit_code_from_ir 2 (example_recursive_tree 3) md = Raise TypeError
  /\ exists cte query, cte_attribute_call md "name" cte query = Raise TypeError.
Proof.
  intros md.
  assert (H : emit_code_from_ir 2 (example_recursive_tree 3) md = Raise TypeError)
    by (vm_compute; reflexivity).
  split; [exact H|].
  destruct (emitter_errors 2 md (example_recursive_tree 3) TypeError H)
    as [E|[E|[[name E]|[E|[E|[E _]]]]]]; try discriminate E.
  exact E.
Defined.

(** A tree without recursions always compiles (given a stack of one frame):
    [emit_code_from_ir] returns the statement that selects, distinct and
    without where-clause, the selections of the tree in the order of the
    tree, renamed and referring to the CTE of the base query, from that CTE;
    the where-clause of the base query is the conjunction of the predicates
    of the tree, in the order of the tree. *)
Theorem plain_tree_compiles fuel md tree :
  tree_recursions tree = [] ->
  (forall direction edge_name depth, block tree <> Recurse direction edge_name depth) ->
  parent_node tree = None ->
  exists base columns from n,
    emit_code_from_ir (S fuel) tree md
    = Ok (Statement
            (select
               (map (get_column_for_block md)
                  (map rename
                     (map (selection_set_table (CTE base false))
                        (tree_selections md tree))))
               true (Some (CTE base false)) None))
    /\ base = select columns true (Some from)
                (Some (and_ (map (get_predicate_condition md n)
                               (tree_predicates md tree)))).
Proof.
  intros Hnil Hblock Hroot.
  destruct (collapse_returns md tree (or_introl Hnil)) as [nc Hc].
  pose proof (proj2 (collapse_spec md tree) nc Hc) as Hcol.
  destruct (c_from _ _ _ Hcol) as (f & Hf & _).
  assert (Hstep :
    match block nc with
    | Recurse _ _ _ =>
        '(column, node) ← _create_recursive_clause nc md None; Ok (Some column, node)
    | _ => Ok (None, nc)
    end = Ok (None, nc)).
  { rewrite (c_block _ _ _ Hcol).
    destruct (block tree) eqn:Hb; try reflexivity. by destruct (Hblock _ _ _ eq_refl). }
  eexists _, _, f, nc. split; [|reflexivity].
  unfold emit_code_from_ir. simpl. rewrite Hc. simpl. rewrite Hstep. simpl.
  unfold _create_base_query, _create_query. rewrite Hf. simpl.
  unfold _traverse_recursions. simpl.
  rewrite (c_recursions _ _ _ Hcol), Hnil. simpl.
  rewrite (c_parent _ _ _ Hcol), Hroot. simpl.
  rewrite app_nil_r, (c_selections _ _ _ Hcol), (c_predicates _ _ _ Hcol).
  reflexivity.
Qed.

Lemma plain_tree_compiles_witness :
  exists q,
    emit_code_from_ir 1 example_family two_clause_metadata = Ok (Statement q).
Proof.
  destruct (plain_tree_compiles 0 two_clause_metadata example_family)
    as (base & columns & from & n & H & _).
  - reflexivity.
  - intros direction edge_name depth H. discriminate H.
  - reflexivity.
  - eexists. exact H.
Defined.
